(** * Reordering items across containers: the [moveItem] algorithm and the
    drop-target acceptance predicates of the drag-and-drop board.

    The repository holds two variants of the board component:
    - [src/src/App.tsx]: request shape [{id, from, to, beforeId?}] or
      [{id, from, to, toEnd: true}], early [return state] when the item is
      not found, no index correction, column surface accepts every item drag;
    - the second variant of the component ([Part000] below): request
      shape [DropInfo] with the ["last"] sentinel, [invariant] on a missing
      item, index correction for same-container moves, and [hasDropIntent]
      in the column's [canDrop].

    JavaScript arrays and objects are mutable and shared by reference, so the
    embedding threads an explicit heap through a small state-and-exception
    monad: [next[args.from]] and [next[args.to]] are the same array when the
    two keys coincide, and the input snapshot lives at other addresses than
    the copies that are mutated. *)

From Stdlib Require Import ZArith Lia.
From stdpp Require Import base tactics option list strings.

Local Open Scope string_scope.
Local Open Scope list_scope.

(** ** Data model *)

(** [type Item = { id: string; label: string }] *)
Module Item.
Record t : Type := mk { id : string; label : string }.
End Item.
Abbreviation Item := Item.t.

#[global] Instance Item_eq_dec : EqDecision Item.
Proof. solve_decision. Defined.

(** Heap addresses. *)
Abbreviation loc := nat.

(** Heap objects: an [Item[]] array, or a plain object used as a
    [Record<string, Item[]>], kept as its own properties in enumeration
    order, each bound to the address of an array. *)
Inductive obj : Type :=
  | Arr (elems : list Item)
  | Rec (props : list (string * loc)).

Abbreviation heap := (list obj).

(** A value of type [Item[] | undefined]: [None] is [undefined]. *)
Abbreviation value := (option loc).

Inductive exn : Type :=
  | TypeError
  | InvariantFailed (message : string).

Inductive completion (A : Type) : Type :=
  | Normal (a : A)
  | Throw (e : exn).
Arguments Normal {A} a.
Arguments Throw {A} e.

(** ** The state-and-exception monad *)

Definition JS (A : Type) : Type := heap → completion A * heap.

#[global] Instance JS_ret : MRet JS := λ A a h, (Normal a, h).
#[global] Instance JS_bind : MBind JS := λ A B k m h,
  match m h with
  | (Normal a, h') => k a h'
  | (Throw e, h') => (Throw e, h')
  end.

Definition throw {A} (e : exn) : JS A := λ h, (Throw e, h).

Definition alloc (o : obj) : JS loc := λ h, (Normal (length h), h ++ [o]).

Definition load (l : loc) : JS obj := λ h,
  match h !! l with
  | Some o => (Normal o, h)
  | None => (Throw TypeError, h)
  end.

Definition store (l : loc) (o : obj) : JS unit := λ h, (Normal (), <[l:=o]> h).

(** ** Array primitives on lists *)

(** [Array.prototype.findIndex]: index of the first element satisfying the
    predicate, [-1] when there is none. *)
Fixpoint findIndex_from (p : Item → bool) (a : list Item) (i : Z) : Z :=
  match a with
  | [] => (-1)%Z
  | x :: a' => if p x then i else findIndex_from p a' (i + 1)%Z
  end.

Definition findIndex_list (p : Item → bool) (a : list Item) : Z :=
  findIndex_from p a 0%Z.

(** [Array.prototype.splice(start, deleteCount, ...items)] for integer
    arguments: the removed elements and the array afterwards. *)
Definition splice_list (start deleteCount : Z) (items a : list Item)
  : list Item * list Item :=
  let len := Z.of_nat (length a) in
  let actualStart :=
    if (start <? 0)%Z then Z.max (len + start) 0 else Z.min start len in
  let actualDeleteCount := Z.min (Z.max deleteCount 0) (len - actualStart) in
  let s := Z.to_nat actualStart in
  let d := Z.to_nat actualDeleteCount in
  (take d (drop s a), take s a ++ items ++ drop (s + d) a).

(** The callback [(i) => i.id === k] handed to [findIndex]. *)
Definition has_id (k : string) (i : Item) : bool := String.eqb (Item.id i) k.

(** [const [item] = removed]: [None] is [undefined]. *)
Definition first (removed : list Item) : option Item := head removed.

(** ** Array and object operations on the heap *)

(** Receiver of an array method. Calling a method on [undefined] throws a
    [TypeError]; so does calling an array method on an object that has none.
    A property read that misses the own properties is modelled as
    [undefined]: what [Object.prototype] would supply instead ([constructor],
    [toString], ...) has no [findIndex], [push] or [splice] either, and the
    call throws the same [TypeError]. *)
Definition receiver (v : value) : JS (loc * list Item) :=
  match v with
  | None => throw TypeError
  | Some l =>
      o ← load l;
      match o with
      | Arr a => mret (l, a)
      | Rec _ => throw TypeError
      end
  end.

Definition findIndex (v : value) (p : Item → bool) : JS Z :=
  '(_, a) ← receiver v; mret (findIndex_list p a).

Definition splice (v : value) (start deleteCount : Z) (items : list Item)
  : JS (list Item) :=
  '(l, a) ← receiver v;
  store l (Arr (snd (splice_list start deleteCount items a)));;
  mret (fst (splice_list start deleteCount items a)).

Definition push (v : value) (x : Item) : JS Z :=
  '(l, a) ← receiver v;
  store l (Arr (a ++ [x]));; mret (Z.of_nat (length a) + 1)%Z.

Definition length_of (v : value) : JS Z :=
  '(_, a) ← receiver v; mret (Z.of_nat (length a)).

(** [[...v]]: a fresh array with the elements of [v]. *)
Definition spread (v : loc) : JS loc :=
  '(_, a) ← receiver (Some v); alloc (Arr a).

(** [Object.entries(o)] of a record object: its own properties in
    enumeration order. ([state] is a [ColumnsState], never an array.) *)
Definition Object_entries (o : loc) : JS (list (string * loc)) :=
  ob ← load o;
  match ob with
  | Rec ps => mret ps
  | Arr _ => throw TypeError
  end.

(** [entries.map(f)]; the pairs and the array that holds them are garbage
    once [Object.fromEntries] has run and are not allocated in the model.
    [Object.fromEntries] defines the properties in the order of the entries,
    which is an enumeration order already, so the copy enumerates as the
    original does. *)
Fixpoint map_entries (f : string * loc → JS (string * loc))
    (es : list (string * loc)) : JS (list (string * loc)) :=
  match es with
  | [] => mret []
  | e :: es' => e' ← f e; r ← map_entries f es'; mret (e' :: r)
  end.

Definition Object_fromEntries (es : list (string * loc)) : JS loc :=
  alloc (Rec es).

Definition own_prop (k : string) (ps : list (string * loc)) : value :=
  snd <$> find (λ p, String.eqb (fst p) k) ps.

(** [o[k]] *)
Definition get_prop (o : loc) (k : string) : JS value :=
  ob ← load o;
  match ob with
  | Rec ps => mret (own_prop k ps)
  | Arr _ => mret None
  end.

(** The copy every [moveItem] starts with:
    [Object.fromEntries(Object.entries(state).map(([k, v]) => [k, [...v]]))]. *)
Definition copy_entry (e : string * loc) : JS (string * loc) :=
  let '(k, v) := e in v' ← spread v; mret (k, v').

Definition clone (state : loc) : JS loc :=
  es ← Object_entries state;
  es' ← map_entries copy_entry es;
  Object_fromEntries es'.

(** ** DOM elements and drag payloads *)

(** What the handlers use of a DOM element: whether it is an [HTMLElement],
    and its attributes. *)
Record Element : Type :=
  mkElement { instanceofHTMLElement : bool;
              attributes : list (string * string) }.

Definition hasAttribute (name : string) (e : Element) : bool :=
  existsb (λ a, String.eqb (fst a) name) (attributes e).

Definition setAttribute (name v : string) (e : Element) : Element :=
  mkElement (instanceofHTMLElement e)
    (if hasAttribute name e
     then List.map (λ a, if String.eqb (fst a) name then (name, v) else a)
            (attributes e)
     else attributes e ++ [(name, v)]).

Definition removeAttribute (name : string) (e : Element) : Element :=
  mkElement (instanceofHTMLElement e)
    (List.filter (λ a, negb (String.eqb (fst a) name)) (attributes e)).

(** [source.data] of a drag in flight: [None] when there is none; an item
    drag carries [{ type: "item", itemId, fromContainerId }], any other kind
    of drag has another [type]. *)
Module DragData.
Record t : Type :=
  mk { type : string; itemId : string; fromContainerId : string }.
End DragData.
Abbreviation DragData := DragData.t.

(** [source.data?.type === "item"] *)
Definition is_item_drag (data : option DragData) : bool :=
  match data with
  | Some d => String.eqb (DragData.type d) "item"
  | None => false
  end.

(** ** [src/src/App.tsx] *)

Module AppTsx.

(** [{ id; from; to; beforeId?: string } | { id; from; to; toEnd: true }] *)
Inductive Args : Type :=
  | Before (id from to : string) (beforeId : option string)
  | ToEnd (id from to : string).

Definition id (args : Args) : string :=
  match args with Before i _ _ _ | ToEnd i _ _ => i end.
Definition from (args : Args) : string :=
  match args with Before _ f _ _ | ToEnd _ f _ => f end.
Definition to (args : Args) : string :=
  match args with Before _ _ t _ | ToEnd _ _ t => t end.

(** ["toEnd" in args && args.toEnd] *)
Definition toEnd (args : Args) : bool :=
  match args with ToEnd _ _ _ => true | Before _ _ _ _ => false end.

(** ["beforeId" in args && args.beforeId]: the anchor when it is a
    non-empty string (the empty string is falsy). *)
Definition beforeId (args : Args) : option string :=
  match args with
  | Before _ _ _ (Some b) => if String.eqb b "" then None else Some b
  | _ => None
  end.

Definition moveItem (state : loc) (args : Args) : JS loc :=
  next ← clone state;
  source ← get_prop next (from args);
  to_ ← get_prop next (to args);
  idx ← findIndex source (has_id (id args));
  if (idx =? -1)%Z then mret state (* nothing to do *)
  else
    removed ← splice source idx 1 [];
    match first removed with
    | None => throw TypeError (* not reached: [idx] is an index of [source] *)
    | Some item =>
        if toEnd args then
          push to_ item;; mret next
        else
          match beforeId args with
          | Some b =>
              beforeIndex ← findIndex to_ (has_id b);
              insertIndex ← (if (beforeIndex =? -1)%Z then length_of to_
                             else mret beforeIndex);
              splice to_ insertIndex 0 [item];; mret next
          | None => mret next
          end
    end.

(** The drop target of [DraggableItem]: [canDrop], [onDragEnter],
    [onDragLeave] and [onDrop]; the handlers return the element as they leave
    it, [onDrop] also the calls of [onMove]. *)
Definition DraggableItem_canDrop (data : option DragData) : bool :=
  is_item_drag data.

Definition DraggableItem_onDragEnter (data : option DragData) (self : Element)
  : Element :=
  if negb (is_item_drag data) then self
  else setAttribute "data-drop-intent" "before" self.

Definition DraggableItem_onDragLeave (self : Element) : Element :=
  removeAttribute "data-drop-intent" self.

Definition DraggableItem_onDrop (item : Item) (containerId : string)
    (data : option DragData) (self : Element) : Element * list Args :=
  let self' := removeAttribute "data-drop-intent" self in
  match data with
  | Some d =>
      if negb (String.eqb (DragData.type d) "item") then (self', [])
      else (self', [Before (DragData.itemId d) (DragData.fromContainerId d)
                      containerId (Some (Item.id item))])
  | None => (self', [])
  end.

(** The drop target of [Column]. *)
Definition Column_canDrop (data : option DragData) (children : list Element)
  : bool :=
  is_item_drag data.

Definition Column_onDrop (id : string) (data : option DragData)
    (self : Element) : Element * list Args :=
  let self' := removeAttribute "data-column-hover" self in
  match data with
  | Some d =>
      if negb (String.eqb (DragData.type d) "item") then (self', [])
      else (self', [ToEnd (DragData.itemId d) (DragData.fromContainerId d) id])
  | None => (self', [])
  end.

End AppTsx.

(** ** The variant with the index correction *)

Module Part000.

(** [type DropInfo = { id; from; to; beforeId: string | "last" }] *)
Record DropInfo : Type :=
  mkDropInfo { id : string; from : string; to : string; beforeId : string }.

(** [invariant(cond, message)] of tiny-invariant. *)
Definition invariant (cond : bool) (message : string) : JS unit :=
  if cond then mret () else throw (InvariantFailed message).

Definition moveItem (state : loc) (args : DropInfo) : JS loc :=
  next ← clone state;
  source ← get_prop next (from args);
  to_ ← get_prop next (to args);
  idx ← findIndex source (has_id (id args));
  invariant (negb (idx =? -1)%Z)
    "Item to move must exist in the source container";;
  removed ← splice source idx 1 [];
  match first removed with
  | None => throw TypeError (* not reached: [idx] is an index of [source] *)
  | Some item =>
      if String.eqb (beforeId args) "last" then
        push to_ item;; mret next
      else
        beforeIndex ← findIndex to_ (has_id (beforeId args));
        insertIndex ← (if (beforeIndex =? -1)%Z then length_of to_
                       else if String.eqb (from args) (to args)
                               && (idx <=? beforeIndex)%Z
                            then mret (beforeIndex + 1)%Z
                            else mret beforeIndex);
        splice to_ insertIndex 0 [item];; mret next
  end.

(** [for (const c of children) if (c instanceof HTMLElement &&
    c.hasAttribute("data-drop-intent")) return true; return false] *)
Fixpoint hasDropIntent (children : list Element) : bool :=
  match children with
  | [] => false
  | c :: rest =>
      if instanceofHTMLElement c && hasAttribute "data-drop-intent" c then true
      else hasDropIntent rest
  end.

(** The drop target of [DraggableItem]: [canDrop], [onDragEnter],
    [onDragLeave] and [onDrop]; the handlers return the element as they leave
    it, [onDrop] also the calls of [onMove]. *)
Definition DraggableItem_canDrop (data : option DragData) : bool :=
  is_item_drag data.

Definition DraggableItem_onDragEnter (data : option DragData) (self : Element)
  : Element :=
  if negb (is_item_drag data) then self
  else setAttribute "data-drop-intent" "before" self.

Definition DraggableItem_onDragLeave (self : Element) : Element :=
  removeAttribute "data-drop-intent" self.

Definition DraggableItem_onDrop (item : Item) (containerId : string)
    (data : option DragData) (self : Element) : Element * list DropInfo :=
  let self' := removeAttribute "data-drop-intent" self in
  match data with
  | Some d =>
      if negb (String.eqb (DragData.type d) "item") then (self', [])
      else (self', [mkDropInfo (DragData.itemId d) (DragData.fromContainerId d)
                      containerId (Item.id item)])
  | None => (self', [])
  end.

(** The drop target of [Column]:
    [source.data?.type === "item" && !hasDropIntent(element.children)]. *)
Definition Column_canDrop (data : option DragData) (children : list Element)
  : bool :=
  is_item_drag data && negb (hasDropIntent children).

Definition Column_onDrop (id : string) (data : option DragData)
    (self : Element) : Element * list DropInfo :=
  let self' := removeAttribute "data-column-hover" self in
  match data with
  | Some d =>
      if negb (String.eqb (DragData.type d) "item") then (self', [])
      else (self', [mkDropInfo (DragData.itemId d) (DragData.fromContainerId d)
                      id "last"])
  | None => (self', [])
  end.

(** A drop released over the item element [self], one of the [children] of
    the list element [column] of container [containerId]. The adapter is an
    external library; of its contract only this is used: it hands the drop
    to the targets under the pointer whose [canDrop] accepts the drag, the
    innermost first. The result is the list of [onMove] calls. *)
Definition drop_over_item (item : Item) (containerId : string)
    (data : option DragData) (self column : Element) (children : list Element)
  : list DropInfo :=
  (if DraggableItem_canDrop data
   then snd (DraggableItem_onDrop item containerId data self) else [])
  ++ (if Column_canDrop data children
      then snd (Column_onDrop containerId data column) else []).

End Part000.

(** ** Reading a snapshot back from the heap *)

(** [type ColumnsState = Record<string, Item[]>] by value: the containers
    of a snapshot with their sequences, in enumeration order. *)
Abbreviation ColumnsState := (list (string * list Item)).

Definition read_array (h : heap) (l : loc) : option (list Item) :=
  match h !! l with
  | Some (Arr a) => Some a
  | _ => None
  end.

Fixpoint read_props (h : heap) (ps : list (string * loc)) : option ColumnsState :=
  match ps with
  | [] => Some []
  | (k, l) :: ps' =>
      match read_array h l, read_props h ps' with
      | Some a, Some r => Some ((k, a) :: r)
      | _, _ => None
      end
  end.

(** The contents of the snapshot at address [s]. *)
Definition snapshot_of (h : heap) (s : loc) : option ColumnsState :=
  match h !! s with
  | Some (Rec ps) => read_props h ps
  | _ => None
  end.

(** The sequence of container [k] (the first entry with that key, as
    [own_prop]). *)
Definition col (k : string) (cs : ColumnsState) : option (list Item) :=
  snd <$> find (λ p, String.eqb (fst p) k) cs.

Fixpoint col_index (k : string) (cs : ColumnsState) : option nat :=
  match cs with
  | [] => None
  | (k', _) :: cs' =>
      if String.eqb k' k then Some 0%nat else S <$> col_index k cs'
  end.

(** Container [k] with its sequence replaced by [a]. *)
Fixpoint set_col (k : string) (a : list Item) (cs : ColumnsState) : ColumnsState :=
  match cs with
  | [] => []
  | (k', a') :: cs' =>
      if String.eqb k' k then (k', a) :: cs' else (k', a') :: set_col k a cs'
  end.

(** The heap right after [clone]: the copies of the sequences at the
    addresses from [length h] on, then the new record. *)
Fixpoint props_from (n : nat) (cs : ColumnsState) : list (string * loc) :=
  match cs with
  | [] => []
  | (k, _) :: cs' => (k, n) :: props_from (S n) cs'
  end.

Definition arrays (cs : ColumnsState) : list obj := (λ p, Arr (snd p)) <$> cs.

Definition fresh_objs (n : nat) (cs : ColumnsState) : list obj :=
  arrays cs ++ [Rec (props_from n cs)].

Definition cloned (h : heap) (cs : ColumnsState) : heap :=
  h ++ fresh_objs (length h) cs.

(** ** What [moveItem] does to the contents

    The two functions below follow [moveItem] statement by statement on the
    contents alone. [to] is read in the snapshot from which the item has
    already been removed: [source] and [to] are one array when the keys
    coincide. [app_moveItem_run] and [p0_moveItem_run] prove that the
    heap-level functions compute them. *)

Inductive moved : Type :=
  | Unchanged                (* the input snapshot itself is returned *)
  | Replaced (cs : ColumnsState)     (* a new snapshot with these contents *)
  | Raised (e : exn).

Definition insert_at_end (k : string) (item : Item) (cs : ColumnsState) : moved :=
  match col k cs with
  | None => Raised TypeError
  | Some t => Replaced (set_col k (t ++ [item]) cs)
  end.

Definition app_contents (cs : ColumnsState) (args : AppTsx.Args) : moved :=
  match col (AppTsx.from args) cs with
  | None => Raised TypeError
  | Some source =>
      let idx :=
        findIndex_list (has_id (AppTsx.id args)) source in
      if (idx =? -1)%Z then Unchanged
      else
        match first (fst (splice_list idx 1 [] source)) with
        | None => Raised TypeError
        | Some item =>
            let cs1 :=
              set_col (AppTsx.from args) (snd (splice_list idx 1 [] source)) cs in
            if AppTsx.toEnd args then insert_at_end (AppTsx.to args) item cs1
            else
              match AppTsx.beforeId args with
              | Some b =>
                  match col (AppTsx.to args) cs1 with
                  | None => Raised TypeError
                  | Some t =>
                      let beforeIndex :=
                        findIndex_list (has_id b) t in
                      let insertIndex :=
                        if (beforeIndex =? -1)%Z then Z.of_nat (length t)
                        else beforeIndex in
                      Replaced (set_col (AppTsx.to args)
                                  (snd (splice_list insertIndex 0 [item] t)) cs1)
                  end
              | None => Replaced cs1
              end
        end
  end.

Definition p0_contents (cs : ColumnsState) (args : Part000.DropInfo) : moved :=
  match col (Part000.from args) cs with
  | None => Raised TypeError
  | Some source =>
      let idx :=
        findIndex_list (has_id (Part000.id args)) source in
      if (idx =? -1)%Z then
        Raised (InvariantFailed
                  "Item to move must exist in the source container")
      else
        match first (fst (splice_list idx 1 [] source)) with
        | None => Raised TypeError
        | Some item =>
            let cs1 :=
              set_col (Part000.from args)
                (snd (splice_list idx 1 [] source)) cs in
            if String.eqb (Part000.beforeId args) "last" then
              insert_at_end (Part000.to args) item cs1
            else
              match col (Part000.to args) cs1 with
              | None => Raised TypeError
              | Some t =>
                  let beforeIndex :=
                    findIndex_list (has_id (Part000.beforeId args)) t in
                  let insertIndex :=
                    if (beforeIndex =? -1)%Z then Z.of_nat (length t)
                    else if String.eqb (Part000.from args) (Part000.to args)
                            && (idx <=? beforeIndex)%Z
                         then (beforeIndex + 1)%Z
                         else beforeIndex in
                  Replaced (set_col (Part000.to args)
                              (snd (splice_list insertIndex 0 [item] t)) cs1)
              end
        end
  end.

(** The completion [moveItem] returns for an effect on the contents:
    [s] is the input snapshot, [next] the copy. *)
Definition outcome_of (s next : loc) (m : moved) : completion loc :=
  match m with
  | Unchanged => Normal s
  | Replaced _ => Normal next
  | Raised e => Throw e
  end.

(** ** Vocabulary of the statements *)

(** All items of a snapshot, container after container. *)
Definition all_items (cs : ColumnsState) : list Item := concat (snd <$> cs).

Definition ids (a : list Item) : list string := Item.id <$> a.

(** The run returns a snapshot at a fresh address with contents [cs'];
    everything that was on the heap before is still there, unchanged. *)
Definition returns_new (run : JS loc) (h : heap) (cs' : ColumnsState) : Prop :=
  ∃ r new, run h = (Normal r, h ++ new) ∧ (length h ≤ r)%nat ∧
           snapshot_of (h ++ new) r = Some cs'.

(** The run returns the address [s] it was given; the heap it started from
    is unchanged. *)
Definition returns_same (run : JS loc) (h : heap) (s : loc) : Prop :=
  ∃ new, run h = (Normal s, h ++ new).

(** The run throws [e]; the heap it started from is unchanged. *)
Definition throws (run : JS loc) (h : heap) (e : exn) : Prop :=
  ∃ new, run h = (Throw e, h ++ new).

(** ** Sample data *)

Definition item_x : Item := Item.mk "x" "X".
Definition item_y : Item := Item.mk "y" "Y".
Definition item_z : Item := Item.mk "z" "Z".

(** The snapshot [{A: [x, y, z]}] at address [1]. *)
Definition heap_A : heap := [Arr [item_x; item_y; item_z]; Rec [("A", 0%nat)]].

(** The snapshot [{A: [x, y], B: [z]}] at address [2]. *)
Definition heap_AB : heap :=
  [Arr [item_x; item_y]; Arr [item_z]; Rec [("A", 0%nat); ("B", 1%nat)]].


(** [r] is a new snapshot made of the objects [new] allocated next to the
    heap [h]: one fresh array per container and one fresh record, under the
    same keys, and with the same sequences outside the containers [f] and
    [t]. *)
Definition new_snapshot_beside (h : heap) (cs : ColumnsState) (f t : string)
    (r : loc) (new : list obj) : Prop :=
  ∃ cs', new = fresh_objs (length h) cs' ∧
         r = (length h + length cs)%nat ∧
         snapshot_of (h ++ new) r = Some cs' ∧
         cs'.*1 = cs.*1 ∧
         ∀ k, k ≠ f → k ≠ t → col k cs' = col k cs.

(** ** The orchestrator *)

(** The layout [App] starts with. *)
Definition initial_columns : ColumnsState :=
  [("a1", [Item.mk "t1" "Write README"; Item.mk "t2" "Create wireframes"]);
   ("a2", [Item.mk "d1" "Build UI"]);
   ("a3", [Item.mk "d2" "Hook up API"]);
   ("b1", [Item.mk "dn1" "Project kickoff"]);
   ("b2", []); ("b3", []); ("c1", []); ("c2", []); ("c3", [])].

(** Its arrays and its record on an otherwise empty heap. *)
Definition initial_heap : heap := fresh_objs 0 initial_columns.
Definition initial_state : loc := length initial_columns.

(** Requests as the drop targets build them: the column surface sends
    [toEnd: true] (the sentinel ["last"] in the second variant), an item
    target sends the id of its own item, which is an item of the snapshot on
    display, as [beforeId]. The payload ([id], [from]) and the target
    container are left arbitrary. *)
Definition app_dropped (cs : ColumnsState) (args : AppTsx.Args) : Prop :=
  match args with
  | AppTsx.ToEnd _ _ _ => True
  | AppTsx.Before _ _ _ (Some b) => b ∈ ids (all_items cs)
  | AppTsx.Before _ _ _ None => False
  end.

Definition p0_dropped (cs : ColumnsState) (args : Part000.DropInfo) : Prop :=
  Part000.beforeId args = "last" ∨ Part000.beforeId args ∈ ids (all_items cs).

(** [setColumns((prev) => moveItem(prev, args))], drop after drop: the
    snapshot held is replaced by what [moveItem] returns; when [moveItem]
    throws no snapshot is produced and the one held stays. *)
Inductive reachable {Args : Type} (moveItem : loc → Args → JS loc)
    (dropped : ColumnsState → Args → Prop) : heap → loc → Prop :=
  | reach_initial : reachable moveItem dropped initial_heap initial_state
  | reach_move h s cs args r h' :
      reachable moveItem dropped h s →
      snapshot_of h s = Some cs →
      dropped cs args →
      moveItem s args h = (Normal r, h') →
      reachable moveItem dropped h' r
  | reach_throw h s cs args e h' :
      reachable moveItem dropped h s →
      snapshot_of h s = Some cs →
      dropped cs args →
      moveItem s args h = (Throw e, h') →
      reachable moveItem dropped h' s.

(** How often the id [i] occurs in a sequence, and in all the sequences of a
    snapshot taken together. *)
Definition count_in (i : string) (a : list Item) : nat :=
  length (filter (λ x, Item.id x = i) a).

Fixpoint occurrences (i : string) (cs : ColumnsState) : nat :=
  match cs with
  | [] => 0
  | (_, a) :: cs' => count_in i a + occurrences i cs'
  end.

(** ** The rest of the components (the same text in both files) *)

(** The drag source of [DraggableItem]: [getInitialData], [onDragStart] and
    [onDrop]. *)
Definition getInitialData (item : Item) (containerId : string) : DragData :=
  DragData.mk "item" (Item.id item) containerId.

Definition draggable_onDragStart (el : Element) : Element :=
  setAttribute "data-dragging" "true" el.

Definition draggable_onDrop (el : Element) : Element :=
  removeAttribute "data-dragging" el.

(** The hover marker of [Column]: [onDragEnter] and [onDragLeave]. *)
Definition Column_onDragEnter (self : Element) : Element :=
  setAttribute "data-column-hover" "true" self.

Definition Column_onDragLeave (self : Element) : Element :=
  removeAttribute "data-column-hover" self.

(** [const titles: Record<string, string>] of [App]. *)
Definition titles : list (string * string) :=
  [("a1", "A1"); ("a2", "A2"); ("a3", "A3"); ("b1", "B1"); ("b2", "B2");
   ("b3", "B3"); ("c1", "C1"); ("c2", "C2"); ("c3", "C3")].

(** [titles[id]]: [None] is [undefined]. *)
Definition title_of (id : string) : option string :=
  snd <$> find (λ p, String.eqb (fst p) id) titles.

(** The props [App] hands to the [Column] it renders for a key:
    [<Column key={id} id={id} title={titles[id]} items={columns[id]} />]. *)
Record ColumnProps : Type :=
  mkColumnProps { props_id : string;
                  props_title : option string;
                  props_items : option (list Item) }.

(** [Object.keys(columns).map((id) => <Column ... />)] *)
Definition App_columns (columns : ColumnsState) : list ColumnProps :=
  (λ id, mkColumnProps id (title_of id) (col id columns)) <$> columns.*1.

(** The items of a sequence other than those with id [i], in order. *)
Definition others (i : string) (a : list Item) : list Item :=
  filter (λ y, Item.id y ≠ i) a.


(** [t'] is [t] with [x] put in at some position. *)
Definition inserted (x : Item) (t t' : list Item) : Prop :=
  ∃ n, t' = take n t ++ x :: drop n t.


(** The elements [DraggableItem] and [Column] render:
    [<div role="listitem" className="item">] and
    [<div role="list" className="item-list">]. *)
Definition item_element : Element :=
  mkElement true [("role", "listitem"); ("class", "item")].
Definition list_element : Element :=
  mkElement true [("role", "list"); ("class", "item-list")].

(** * Proofs *)

(** ** The monad and the heap *)

Lemma bind_run {A B} (m : JS A) (k : A → JS B) (h : heap) :
  (m ≫= k) h =
    match m h with
    | (Normal a, h') => k a h'
    | (Throw e, h') => (Throw e, h')
    end.
Proof. reflexivity. Qed.

Lemma receiver_arr (h : heap) (l : loc) (a : list Item) :
  h !! l = Some (Arr a) → receiver (Some l) h = (Normal (l, a), h).
Proof. intros Hl. cbn. rewrite bind_run. unfold load. by rewrite Hl. Qed.

Lemma read_array_Some (h : heap) (l : loc) (a : list Item) :
  read_array h l = Some a ↔ h !! l = Some (Arr a).
Proof.
  unfold read_array. destruct (h !! l) as [[]|]; naive_solver.
Qed.

Lemma read_array_app (h new : heap) (l : loc) (a : list Item) :
  read_array h l = Some a → read_array (h ++ new) l = Some a.
Proof.
  rewrite !read_array_Some. intros Hl. by apply lookup_app_l_Some.
Qed.

Lemma read_props_app (h new : heap) ps (cs : ColumnsState) :
  read_props h ps = Some cs → read_props (h ++ new) ps = Some cs.
Proof.
  revert cs. induction ps as [|[k l] ps IH]; intros cs; [done|]. cbn.
  destruct (read_array h l) as [a|] eqn:Ha; [|done].
  destruct (read_props h ps) as [r|]; [|done].
  intros [= <-]. rewrite (read_array_app _ _ _ _ Ha). by rewrite (IH r).
Qed.

(** Allocation never disturbs a snapshot that is already there. *)
Lemma snapshot_of_app (h new : heap) (s : loc) (cs : ColumnsState) :
  snapshot_of h s = Some cs → snapshot_of (h ++ new) s = Some cs.
Proof.
  unfold snapshot_of. destruct (h !! s) as [[a|ps]|] eqn:Hs; try done.
  intros Hps. rewrite (lookup_app_l_Some _ _ _ _ Hs).
  by apply read_props_app.
Qed.

Lemma arrays_length (cs : ColumnsState) : length (arrays cs) = length cs.
Proof. unfold arrays. by rewrite length_fmap. Qed.

Lemma set_col_length k a (cs : ColumnsState) : length (set_col k a cs) = length cs.
Proof.
  induction cs as [|[k' a'] cs IH]; [done|]. cbn.
  destruct (String.eqb k' k); cbn; auto.
Qed.

Lemma props_from_set_col n k a (cs : ColumnsState) :
  props_from n (set_col k a cs) = props_from n cs.
Proof.
  revert n. induction cs as [|[k' a'] cs IH]; intros n; [done|]. cbn.
  destruct (String.eqb k' k); cbn; [done|]. by rewrite IH.
Qed.

(** ** [clone] *)

Lemma spread_run (h : heap) (l : loc) (a : list Item) :
  h !! l = Some (Arr a) → spread l h = (Normal (length h), h ++ [Arr a]).
Proof.
  intros Hl. unfold spread. rewrite bind_run, (receiver_arr _ _ _ Hl).
  reflexivity.
Qed.

Lemma map_entries_spread (h0 : heap) ps (cs : ColumnsState) :
  read_props h0 ps = Some cs →
  ∀ extra,
    map_entries copy_entry ps (h0 ++ extra)
    = (Normal (props_from (length (h0 ++ extra)) cs),
       (h0 ++ extra) ++ arrays cs).
Proof.
  revert cs. induction ps as [|[k l] ps IH]; intros cs.
  - intros [= <-] extra. cbn. by rewrite app_nil_r.
  - cbn [read_props].
    destruct (read_array h0 l) as [a|] eqn:Ha; [|done].
    destruct (read_props h0 ps) as [r|] eqn:Hr; [|done].
    intros [= <-] extra. cbn [map_entries].
    apply read_array_Some in Ha.
    rewrite bind_run. unfold copy_entry at 1. rewrite bind_run.
    rewrite (spread_run _ _ a); [|by apply lookup_app_l_Some].
    lazy beta iota. unfold mret at 1, JS_ret at 1.
    rewrite bind_run, <- (app_assoc h0 extra [Arr a]).
    rewrite (IH r eq_refl (extra ++ [Arr a])).
    lazy beta iota. unfold mret, JS_ret. f_equal.
    + f_equal. cbn [props_from]. f_equal. f_equal.
      rewrite !length_app. cbn. lia.
    + unfold arrays. rewrite fmap_cons. cbn [snd].
      by rewrite <- !app_assoc.
Qed.

Lemma clone_run (h : heap) (s : loc) (cs : ColumnsState) :
  snapshot_of h s = Some cs →
  clone s h = (Normal (length h + length cs)%nat, cloned h cs).
Proof.
  unfold snapshot_of. destruct (h !! s) as [[a|ps]|] eqn:Hs; try done.
  intros Hps. unfold clone, Object_entries. rewrite !bind_run.
  unfold load. rewrite Hs. lazy beta iota. unfold mret at 1, JS_ret at 1.
  pose proof (map_entries_spread h ps cs Hps []) as Hm.
  rewrite app_nil_r in Hm. rewrite bind_run, Hm.
  unfold Object_fromEntries, alloc, cloned, fresh_objs.
  rewrite length_app, arrays_length. by rewrite <- app_assoc.
Qed.

(** ** The copy on the heap *)

Lemma col_index_lt k (cs : ColumnsState) i :
  col_index k cs = Some i → (i < length cs)%nat.
Proof.
  revert i. induction cs as [|[k' a'] cs IH]; intros i; [done|]. cbn.
  destruct (String.eqb k' k).
  - intros [= <-]. lia.
  - destruct (col_index k cs) as [j|]; [|done]. intros [= <-].
    specialize (IH j eq_refl). lia.
Qed.

Lemma col_index_col k (cs : ColumnsState) :
  match col_index k cs with
  | Some i => ∃ a, cs !! i = Some (k, a) ∧ col k cs = Some a
  | None => col k cs = None
  end.
Proof.
  unfold col. induction cs as [|[k' a'] cs IH]; [done|]. cbn.
  destruct (String.eqb k' k) eqn:E.
  - apply String.eqb_eq in E as ->. by exists a'.
  - destruct (col_index k cs) as [j|]; cbn; [|done].
    destruct IH as (a & Hj & Ha). by exists a.
Qed.

Lemma col_Some_index k (cs : ColumnsState) a :
  col k cs = Some a → ∃ i, col_index k cs = Some i ∧ cs !! i = Some (k, a).
Proof.
  intros Ha. pose proof (col_index_col k cs) as H.
  destruct (col_index k cs) as [i|]; [|congruence].
  destruct H as (a' & Hi & Ha'). exists i. split; [done|]. congruence.
Qed.

Lemma own_prop_props_from k n (cs : ColumnsState) :
  own_prop k (props_from n cs) = (λ i, (n + i)%nat) <$> col_index k cs.
Proof.
  unfold own_prop. revert n.
  induction cs as [|[k' a'] cs IH]; intros n; [done|]. cbn.
  destruct (String.eqb k' k); cbn.
  - f_equal. lia.
  - rewrite IH. destruct (col_index k cs); cbn; [|done]. f_equal. lia.
Qed.

Lemma arrays_set_col k a (cs : ColumnsState) i :
  col_index k cs = Some i → <[i := Arr a]> (arrays cs) = arrays (set_col k a cs).
Proof.
  unfold arrays. revert i.
  induction cs as [|[k' a'] cs IH]; intros i; [done|]. cbn.
  destruct (String.eqb k' k).
  - by intros [= <-].
  - destruct (col_index k cs) as [j|]; [|done]. intros [= <-]. cbn.
    f_equal. by apply IH.
Qed.

Lemma col_set_col_eq k a (cs : ColumnsState) :
  is_Some (col k cs) → col k (set_col k a cs) = Some a.
Proof.
  unfold col. induction cs as [|[k' a'] cs IH]; cbn.
  - by intros [? ?].
  - destruct (String.eqb k' k) eqn:E; cbn; rewrite E; [done|]. exact IH.
Qed.

Lemma col_set_col_ne k k' a (cs : ColumnsState) :
  k ≠ k' → col k' (set_col k a cs) = col k' cs.
Proof.
  intros Hne. unfold col. induction cs as [|[k0 a0] cs IH]; [done|]. cbn.
  destruct (String.eqb k0 k) eqn:E; cbn.
  - apply String.eqb_eq in E as ->.
    destruct (String.eqb k k') eqn:E'; [|done].
    by apply String.eqb_eq in E'.
  - destruct (String.eqb k0 k'); [done|]. exact IH.
Qed.

Lemma col_set_col_is_Some k k' a (cs : ColumnsState) :
  is_Some (col k' (set_col k a cs)) ↔ is_Some (col k' cs).
Proof.
  destruct (decide (k = k')) as [<-|Hne].
  - split; intros [t Ht].
    + destruct (col k cs) eqn:E; [by eexists|].
      pose proof (col_index_col k (set_col k a cs)) as H1.
      pose proof (col_index_col k cs) as H2.
      assert (col_index k (set_col k a cs) = col_index k cs) as Hi.
      { clear. induction cs as [|[k0 a0] cs IH]; [done|]. cbn.
        destruct (String.eqb k0 k) eqn:E; cbn; rewrite E; [done|].
        by rewrite IH. }
      rewrite Hi in H1. destruct (col_index k cs); [|congruence].
      destruct H2 as (? & _ & ?). congruence.
    + rewrite col_set_col_eq; [by eexists|by eexists].
  - by rewrite col_set_col_ne.
Qed.

Lemma cloned_lookup_arr (h : heap) (cs : ColumnsState) i k a :
  cs !! i = Some (k, a) → cloned h cs !! (length h + i)%nat = Some (Arr a).
Proof.
  intros Hi. unfold cloned, fresh_objs.
  rewrite lookup_app_r by lia.
  replace (length h + i - length h)%nat with i by lia.
  apply lookup_app_l_Some. unfold arrays.
  by rewrite list_lookup_fmap, Hi.
Qed.

Lemma cloned_lookup_rec (h : heap) (cs : ColumnsState) :
  cloned h cs !! (length h + length cs)%nat
  = Some (Rec (props_from (length h) cs)).
Proof.
  unfold cloned, fresh_objs. rewrite lookup_app_r by lia.
  replace (length h + length cs - length h)%nat with (length cs) by lia.
  rewrite lookup_app_r by (rewrite arrays_length; lia).
  rewrite arrays_length. by replace (length cs - length cs)%nat with 0%nat by lia.
Qed.

Lemma cloned_store (h : heap) (cs : ColumnsState) k a i :
  col_index k cs = Some i →
  <[(length h + i)%nat := Arr a]> (cloned h cs) = cloned h (set_col k a cs).
Proof.
  intros Hi. unfold cloned, fresh_objs.
  rewrite insert_app_r.
  rewrite insert_app_l by (rewrite arrays_length; by eapply col_index_lt).
  by rewrite (arrays_set_col _ _ _ _ Hi), props_from_set_col.
Qed.

Lemma read_props_fresh (h pre post : heap) (cs : ColumnsState) :
  read_props (h ++ pre ++ arrays cs ++ post)
    (props_from (length h + length pre) cs) = Some cs.
Proof.
  revert pre. induction cs as [|[k a] cs IH]; intros pre; [done|].
  cbn [props_from read_props].
  assert (read_array (h ++ pre ++ arrays ((k, a) :: cs) ++ post)
            (length h + length pre) = Some a) as ->.
  { apply read_array_Some. rewrite lookup_app_r by lia.
    rewrite lookup_app_r by lia.
    by replace (length h + length pre - length h - length pre)%nat
      with 0%nat by lia. }
  specialize (IH (pre ++ [Arr a])).
  rewrite length_app in IH. cbn in IH.
  replace (length h + (length pre + 1))%nat
    with (S (length h + length pre)) in IH by lia.
  unfold arrays in *. rewrite fmap_cons. cbn [snd].
  rewrite <- !app_assoc in IH. cbn in IH. cbn. by rewrite IH.
Qed.

(** The copy reads back as the contents it was made from, at the address
    [clone] returns. *)
Lemma snapshot_of_cloned (h : heap) (cs : ColumnsState) n :
  n = length cs → snapshot_of (cloned h cs) (length h + n)%nat = Some cs.
Proof.
  intros ->. unfold snapshot_of. rewrite cloned_lookup_rec.
  pose proof (read_props_fresh h [] [Rec (props_from (length h) cs)] cs) as H.
  cbn in H. by rewrite Nat.add_0_r in H.
Qed.

(** ** Array methods on the copy *)

Section on_the_copy.
Context (h : heap) (cs : ColumnsState) (k : string) (v : value).
Hypothesis Hv : v = own_prop k (props_from (length h) cs).

Lemma get_prop_cloned n :
  n = length cs →
  get_prop (length h + n)%nat k (cloned h cs) = (Normal v, cloned h cs).
Proof.
  intros ->. unfold get_prop. rewrite bind_run. unfold load.
  rewrite cloned_lookup_rec. by rewrite Hv.
Qed.

Lemma receiver_cloned_None :
  col k cs = None → receiver v (cloned h cs) = (Throw TypeError, cloned h cs).
Proof.
  intros Hc. rewrite Hv, own_prop_props_from.
  pose proof (col_index_col k cs) as H.
  destruct (col_index k cs) as [i|]; [|done].
  destruct H as (a & _ & Ha). congruence.
Qed.

Lemma receiver_cloned_Some a :
  col k cs = Some a →
  ∃ i, col_index k cs = Some i ∧
       receiver v (cloned h cs) = (Normal ((length h + i)%nat, a), cloned h cs).
Proof.
  intros Hc. destruct (col_Some_index _ _ _ Hc) as (i & Hi & Hl).
  exists i. split; [done|].
  rewrite Hv, own_prop_props_from, Hi. cbn [fmap option_fmap option_map].
  apply receiver_arr. by eapply cloned_lookup_arr.
Qed.

Lemma findIndex_cloned p :
  findIndex v p (cloned h cs) =
    match col k cs with
    | Some a => (Normal (findIndex_list p a), cloned h cs)
    | None => (Throw TypeError, cloned h cs)
    end.
Proof.
  unfold findIndex. rewrite bind_run. destruct (col k cs) as [a|] eqn:Hc.
  - destruct (receiver_cloned_Some a Hc) as (i & _ & ->). done.
  - by rewrite receiver_cloned_None.
Qed.

Lemma length_of_cloned :
  length_of v (cloned h cs) =
    match col k cs with
    | Some a => (Normal (Z.of_nat (length a)), cloned h cs)
    | None => (Throw TypeError, cloned h cs)
    end.
Proof.
  unfold length_of. rewrite bind_run. destruct (col k cs) as [a|] eqn:Hc.
  - destruct (receiver_cloned_Some a Hc) as (i & _ & ->). done.
  - by rewrite receiver_cloned_None.
Qed.

Lemma splice_cloned start deleteCount items :
  splice v start deleteCount items (cloned h cs) =
    match col k cs with
    | Some a =>
        (Normal (fst (splice_list start deleteCount items a)),
         cloned h (set_col k (snd (splice_list start deleteCount items a)) cs))
    | None => (Throw TypeError, cloned h cs)
    end.
Proof.
  unfold splice. rewrite bind_run. destruct (col k cs) as [a|] eqn:Hc.
  - destruct (receiver_cloned_Some a Hc) as (i & Hi & ->). lazy beta iota.
    rewrite bind_run. unfold store. by rewrite (cloned_store _ _ _ _ _ Hi).
  - by rewrite receiver_cloned_None.
Qed.

Lemma push_cloned x :
  push v x (cloned h cs) =
    match col k cs with
    | Some a =>
        (Normal (Z.of_nat (length a) + 1)%Z, cloned h (set_col k (a ++ [x]) cs))
    | None => (Throw TypeError, cloned h cs)
    end.
Proof.
  unfold push. rewrite bind_run. destruct (col k cs) as [a|] eqn:Hc.
  - destruct (receiver_cloned_Some a Hc) as (i & Hi & ->). lazy beta iota.
    rewrite bind_run. unfold store. by rewrite (cloned_store _ _ _ _ _ Hi).
  - by rewrite receiver_cloned_None.
Qed.

End on_the_copy.

(** ** [moveItem] computes its effect on the contents *)

Ltac js_step lem := rewrite bind_run, lem; lazy beta iota.

Lemma insert_at_end_run (h : heap) (cs0 cs : ColumnsState) k v item s next :
  v = own_prop k (props_from (length h) cs) →
  length cs = length cs0 →
  ∃ cs'', length cs'' = length cs0 ∧
    (push v item ≫= λ _, mret next) (cloned h cs)
    = (outcome_of s next (insert_at_end k item cs), cloned h cs'') ∧
    (∀ cs', insert_at_end k item cs = Replaced cs' → cs'' = cs').
Proof.
  intros Hv Hlen. unfold insert_at_end.
  js_step (push_cloned h cs k v Hv). destruct (col k cs) as [t|].
  - eexists. split; [|split; [reflexivity|]].
    + by rewrite set_col_length.
    + by intros cs' [= <-].
  - exists cs. by repeat split.
Qed.

Lemma p0_moveItem_run (h : heap) (s : loc) (cs : ColumnsState) args :
  snapshot_of h s = Some cs →
  ∃ cs'', length cs'' = length cs ∧
    Part000.moveItem s args h
    = (outcome_of s (length h + length cs)%nat (p0_contents cs args),
       cloned h cs'') ∧
    (∀ cs', p0_contents cs args = Replaced cs' → cs'' = cs').
Proof.
  intros Hs. unfold Part000.moveItem, p0_contents.
  js_step (clone_run h s cs Hs).
  js_step (get_prop_cloned h cs (Part000.from args) _ eq_refl _ eq_refl).
  js_step (get_prop_cloned h cs (Part000.to args) _ eq_refl _ eq_refl).
  js_step (findIndex_cloned h cs (Part000.from args) _ eq_refl).
  destruct (col (Part000.from args) cs) as [source|] eqn:Hsrc;
    [|exists cs; by repeat split].
  set (idx := findIndex_list _ source).
  rewrite bind_run. unfold Part000.invariant.
  destruct (idx =? -1)%Z; cbn [negb];
    [exists cs; by repeat split|].
  unfold mret at 1, JS_ret at 1. lazy beta iota.
  js_step (splice_cloned h cs (Part000.from args) _ eq_refl).
  rewrite Hsrc.
  set (cs1 := set_col _ _ cs).
  assert (length cs1 = length cs) as Hlen by apply set_col_length.
  assert (own_prop (Part000.to args) (props_from (length h) cs)
          = own_prop (Part000.to args) (props_from (length h) cs1)) as Hto
    by (unfold cs1; by rewrite props_from_set_col).
  destruct (first _) as [item|]; [|exists cs1; by repeat split].
  destruct (String.eqb (Part000.beforeId args) "last").
  { by apply insert_at_end_run. }
  js_step (findIndex_cloned h cs1 (Part000.to args) _ Hto).
  destruct (col (Part000.to args) cs1) as [t|] eqn:Ht;
    [|exists cs1; by repeat split].
  set (beforeIndex := findIndex_list _ t).
  assert (∀ z : Z, (mret z ≫= λ insertIndex,
             splice (own_prop (Part000.to args) (props_from (length h) cs))
               insertIndex 0 [item] ≫= λ _, mret (length h + length cs)%nat)
            (cloned h cs1)
          = (Normal (length h + length cs)%nat,
             cloned h (set_col (Part000.to args)
                         (snd (splice_list z 0 [item] t)) cs1))) as Hins.
  { intros z. rewrite bind_run. unfold mret at 1, JS_ret at 1.
    lazy beta iota.
    js_step (splice_cloned h cs1 (Part000.to args) _ Hto). by rewrite Ht. }
  eexists. split; [|split; [|intros cs' [= <-]; reflexivity]].
  { by rewrite set_col_length. }
  cbn [outcome_of].
  destruct (beforeIndex =? -1)%Z.
  - rewrite bind_run.
    rewrite (length_of_cloned h cs1 (Part000.to args) _ Hto), Ht.
    lazy beta iota.
    js_step (splice_cloned h cs1 (Part000.to args) _ Hto). by rewrite Ht.
  - destruct (_ && _); apply Hins.
Qed.

Lemma app_moveItem_run (h : heap) (s : loc) (cs : ColumnsState) args :
  snapshot_of h s = Some cs →
  ∃ cs'', length cs'' = length cs ∧
    AppTsx.moveItem s args h
    = (outcome_of s (length h + length cs)%nat (app_contents cs args),
       cloned h cs'') ∧
    (∀ cs', app_contents cs args = Replaced cs' → cs'' = cs').
Proof.
  intros Hs. unfold AppTsx.moveItem, app_contents.
  js_step (clone_run h s cs Hs).
  js_step (get_prop_cloned h cs (AppTsx.from args) _ eq_refl _ eq_refl).
  js_step (get_prop_cloned h cs (AppTsx.to args) _ eq_refl _ eq_refl).
  js_step (findIndex_cloned h cs (AppTsx.from args) _ eq_refl).
  destruct (col (AppTsx.from args) cs) as [source|] eqn:Hsrc;
    [|exists cs; by repeat split].
  set (idx := findIndex_list _ source).
  destruct (idx =? -1)%Z; [exists cs; by repeat split|].
  js_step (splice_cloned h cs (AppTsx.from args) _ eq_refl).
  rewrite Hsrc.
  set (cs1 := set_col _ _ cs).
  assert (length cs1 = length cs) as Hlen by apply set_col_length.
  assert (own_prop (AppTsx.to args) (props_from (length h) cs)
          = own_prop (AppTsx.to args) (props_from (length h) cs1)) as Hto
    by (unfold cs1; by rewrite props_from_set_col).
  destruct (first _) as [item|]; [|exists cs1; by repeat split].
  destruct (AppTsx.toEnd args).
  { by apply insert_at_end_run. }
  destruct (AppTsx.beforeId args) as [b|];
    [|exists cs1; split; [done|split; [done|by intros cs' [= <-]]]].
  js_step (findIndex_cloned h cs1 (AppTsx.to args) _ Hto).
  destruct (col (AppTsx.to args) cs1) as [t|] eqn:Ht;
    [|exists cs1; by repeat split].
  set (beforeIndex := findIndex_list _ t).
  eexists. split; [|split; [|intros cs' [= <-]; reflexivity]].
  { by rewrite set_col_length. }
  cbn [outcome_of].
  destruct (beforeIndex =? -1)%Z.
  - rewrite bind_run.
    rewrite (length_of_cloned h cs1 (AppTsx.to args) _ Hto), Ht.
    lazy beta iota.
    js_step (splice_cloned h cs1 (AppTsx.to args) _ Hto). by rewrite Ht.
  - rewrite bind_run. unfold mret at 1, JS_ret at 1. lazy beta iota.
    js_step (splice_cloned h cs1 (AppTsx.to args) _ Hto). by rewrite Ht.
Qed.

(** ** [findIndex] and [splice] on lists *)

Lemma findIndex_from_found p l1 x l2 i :
  Forall (λ y, p y = false) l1 → p x = true →
  findIndex_from p (l1 ++ x :: l2) i = (i + Z.of_nat (length l1))%Z.
Proof.
  intros Hl1 Hx. revert i. induction Hl1 as [|y l1 Hy _ IH]; intros i; cbn.
  - rewrite Hx. lia.
  - rewrite Hy, IH. lia.
Qed.

Lemma findIndex_from_cases p a i :
  (Forall (λ y, p y = false) a ∧ findIndex_from p a i = (-1)%Z) ∨
  (∃ l1 x l2, a = l1 ++ x :: l2 ∧ Forall (λ y, p y = false) l1 ∧ p x = true ∧
              findIndex_from p a i = (i + Z.of_nat (length l1))%Z).
Proof.
  revert i. induction a as [|y a IH]; intros i; cbn.
  - left. by split.
  - destruct (p y) eqn:Hy.
    + right. exists [], y, a. repeat split; [constructor|done|cbn; lia].
    + destruct (IH (i + 1)%Z) as [[Hall ->]|(l1 & x & l2 & -> & Hl1 & Hx & ->)].
      * left. split; [by constructor|done].
      * right. exists (y :: l1), x, l2.
        repeat split; [by constructor|done|cbn; lia].
Qed.

Lemma findIndex_list_found p l1 x l2 :
  Forall (λ y, p y = false) l1 → p x = true →
  findIndex_list p (l1 ++ x :: l2) = Z.of_nat (length l1).
Proof.
  intros. unfold findIndex_list. by rewrite findIndex_from_found.
Qed.

Lemma findIndex_list_absent p a :
  Forall (λ y, p y = false) a → findIndex_list p a = (-1)%Z.
Proof.
  intros Hall. unfold findIndex_list.
  destruct (findIndex_from_cases p a 0) as [[_ ?]|(l1 & x & l2 & -> & _ & Hx & _)];
    [done|].
  apply Forall_app in Hall as [_ Hall]. apply Forall_cons in Hall as [Hx' _].
  congruence.
Qed.

Lemma findIndex_list_cases p a :
  (Forall (λ y, p y = false) a ∧ findIndex_list p a = (-1)%Z) ∨
  (∃ l1 x l2, a = l1 ++ x :: l2 ∧ Forall (λ y, p y = false) l1 ∧ p x = true ∧
              findIndex_list p a = Z.of_nat (length l1)).
Proof.
  unfold findIndex_list.
  destruct (findIndex_from_cases p a 0) as [?|(l1 & x & l2 & ? & ? & ? & ->)];
    [by left|right]. by exists l1, x, l2.
Qed.

Lemma splice_list_in_range (s d : nat) items a :
  (s + d ≤ length a)%nat →
  splice_list (Z.of_nat s) (Z.of_nat d) items a
  = (take d (drop s a), take s a ++ items ++ drop (s + d) a).
Proof.
  intros Hsd. unfold splice_list.
  destruct (Z.ltb_spec (Z.of_nat s) 0) as [?|_]; [lia|].
  replace (Z.min (Z.of_nat s) (Z.of_nat (length a))) with (Z.of_nat s) by lia.
  replace (Z.min _ _) with (Z.of_nat d) by lia.
  by rewrite !Nat2Z.id.
Qed.

(** [splice(idx, 1)] at the index [findIndex] returned removes that element,
    so [const [item] = source.splice(idx, 1)] always binds an item: the
    [None] branch of [first removed] in [moveItem] is never taken. *)
Lemma first_removed_found p a :
  findIndex_list p a ≠ (-1)%Z →
  ∃ x, first (fst (splice_list (findIndex_list p a) 1 [] a)) = Some x ∧
       p x = true.
Proof.
  intros Hidx.
  destruct (findIndex_list_cases p a)
    as [[_ ?]|(l1 & x & l2 & -> & _ & Hx & Hi)]; [done|].
  rewrite Hi, (splice_list_in_range (length l1) 1)
    by (rewrite length_app; cbn; lia).
  rewrite drop_app_length. by exists x.
Qed.

Lemma splice_list_remove l1 x l2 :
  splice_list (Z.of_nat (length l1)) 1 [] (l1 ++ x :: l2) = ([x], l1 ++ l2).
Proof.
  rewrite (splice_list_in_range (length l1) 1)
    by (rewrite length_app; cbn; lia).
  rewrite take_app_length, drop_app_length. cbn [app].
  rewrite drop_app_ge by lia.
  replace (length l1 + 1 - length l1)%nat with 1%nat by lia.
  by cbn.
Qed.

(** [splice(i, 0, item)] with [0 <= i <= length] inserts before position [i]. *)
Lemma splice_list_insert (i : nat) item t :
  (i ≤ length t)%nat →
  splice_list (Z.of_nat i) 0 [item] t = ([], take i t ++ item :: drop i t).
Proof.
  intros Hi. rewrite (splice_list_in_range i 0) by lia.
  by rewrite Nat.add_0_r.
Qed.

(** [splice(z, 0, item)] puts the item somewhere into the array, whatever
    [z] is, and removes nothing. *)
Lemma splice_list_insert_perm z item t :
  snd (splice_list z 0 [item] t) ≡ₚ item :: t.
Proof.
  unfold splice_list. cbn [snd].
  set (s := Z.to_nat _).
  replace (Z.to_nat (Z.min (Z.max 0 0) _)) with 0%nat by lia.
  rewrite Nat.add_0_r. cbn [app].
  rewrite <- Permutation_middle. by rewrite take_drop.
Qed.

Lemma splice_list_insert_end item t :
  splice_list (Z.of_nat (length t)) 0 [item] t = ([], t ++ [item]).
Proof.
  rewrite splice_list_insert by lia. by rewrite firstn_all, drop_all.
Qed.

Lemma splice_list_insert_mid item l1 l2 :
  splice_list (Z.of_nat (length l1)) 0 [item] (l1 ++ l2)
  = ([], l1 ++ item :: l2).
Proof.
  rewrite splice_list_insert by (rewrite length_app; lia).
  by rewrite take_app_length, drop_app_length.
Qed.

(** ** Containers of a snapshot *)

Lemma has_id_true k i : has_id k i = true ↔ Item.id i = k.
Proof. apply String.eqb_eq. Qed.

Lemma has_id_false k i : has_id k i = false ↔ Item.id i ≠ k.
Proof. apply String.eqb_neq. Qed.

Lemma absent_not_elem k (a : list Item) :
  Forall (λ y, has_id k y = false) a ↔ k ∉ ids a.
Proof.
  unfold ids. rewrite Forall_forall. split.
  - intros H (y & Hk & Hy)%list_elem_of_fmap.
    specialize (H y Hy). apply has_id_false in H. congruence.
  - intros H y Hy. apply has_id_false. intros <-. apply H.
    apply list_elem_of_fmap. by exists y.
Qed.

Lemma absent_check k (a : list Item) :
  forallb (λ y, negb (has_id k y)) a = true → k ∉ ids a.
Proof.
  intros H. apply absent_not_elem, Forall_forall. intros y Hy.
  rewrite forallb_forall in H. apply negb_true_iff, H.
  by apply list_elem_of_In.
Qed.

(** The first item with id [k], when there is one. *)
Lemma first_occurrence k (a : list Item) :
  k ∈ ids a →
  ∃ l1 x l2, a = l1 ++ x :: l2 ∧ (k ∉ ids l1) ∧ Item.id x = k.
Proof.
  intros Hk. destruct (findIndex_list_cases (has_id k) a)
    as [[Habs _]|(l1 & x & l2 & -> & Hl1 & Hx & _)].
  - by apply absent_not_elem in Habs.
  - exists l1, x, l2. split; [done|]. split; [by apply absent_not_elem|].
    by apply has_id_true.
Qed.

Lemma col_split k (cs : ColumnsState) a :
  col k cs = Some a →
  ∃ pre post, cs = pre ++ (k, a) :: post ∧
              ∀ a', set_col k a' cs = pre ++ (k, a') :: post.
Proof.
  unfold col. induction cs as [|[k' b] cs IH]; [done|]. cbn.
  destruct (String.eqb k' k) eqn:E.
  - apply String.eqb_eq in E as ->. intros [= <-]. by exists [], cs.
  - intros (pre & post & -> & Hset)%IH.
    exists ((k', b) :: pre), post. split; [done|].
    intros a'. cbn. by rewrite Hset.
Qed.

Lemma set_col_set_col k a b (cs : ColumnsState) :
  set_col k a (set_col k b cs) = set_col k a cs.
Proof.
  induction cs as [|[k' c] cs IH]; [done|]. cbn.
  destruct (String.eqb k' k) eqn:E; cbn; rewrite E; [done|]. by rewrite IH.
Qed.

Lemma set_col_keys k a (cs : ColumnsState) : (set_col k a cs).*1 = cs.*1.
Proof.
  induction cs as [|[k' c] cs IH]; [done|]. cbn.
  destruct (String.eqb k' k); cbn; [done|]. by rewrite IH.
Qed.

Lemma all_items_set_col k (cs : ColumnsState) a a' :
  col k cs = Some a →
  ∃ pre post, all_items cs = pre ++ a ++ post ∧
              all_items (set_col k a' cs) = pre ++ a' ++ post.
Proof.
  intros (pre & post & -> & Hset)%col_split. rewrite Hset.
  exists (all_items pre), (all_items post). unfold all_items.
  by rewrite !fmap_app, !concat_app.
Qed.

(** ** The bridge between the heap and the contents *)

Lemma run_returns_new (run : JS loc) (h : heap) (cs cs' cs'' : ColumnsState) :
  length cs'' = length cs →
  run h = (Normal (length h + length cs)%nat, cloned h cs'') →
  cs'' = cs' →
  returns_new run h cs'.
Proof.
  intros Hlen Hrun <-. exists (length h + length cs)%nat, (fresh_objs (length h) cs'').
  split; [done|]. split; [lia|]. by apply snapshot_of_cloned.
Qed.

Lemma p0_returns_new (h : heap) s (cs cs' : ColumnsState) args :
  snapshot_of h s = Some cs → p0_contents cs args = Replaced cs' →
  returns_new (Part000.moveItem s args) h cs'.
Proof.
  intros Hs Hc. destruct (p0_moveItem_run h s cs args Hs) as (cs'' & Hlen & Hrun & Heq).
  rewrite Hc in Hrun. eapply run_returns_new; eauto.
Qed.

Lemma p0_throws (h : heap) s (cs : ColumnsState) args e :
  snapshot_of h s = Some cs → p0_contents cs args = Raised e →
  throws (Part000.moveItem s args) h e.
Proof.
  intros Hs Hc. destruct (p0_moveItem_run h s cs args Hs) as (cs'' & _ & Hrun & _).
  rewrite Hc in Hrun. by exists (fresh_objs (length h) cs'').
Qed.

Lemma app_returns_new (h : heap) s (cs cs' : ColumnsState) args :
  snapshot_of h s = Some cs → app_contents cs args = Replaced cs' →
  returns_new (AppTsx.moveItem s args) h cs'.
Proof.
  intros Hs Hc. destruct (app_moveItem_run h s cs args Hs) as (cs'' & Hlen & Hrun & Heq).
  rewrite Hc in Hrun. eapply run_returns_new; eauto.
Qed.

Lemma app_returns_same (h : heap) s (cs : ColumnsState) args :
  snapshot_of h s = Some cs → app_contents cs args = Unchanged →
  returns_same (AppTsx.moveItem s args) h s.
Proof.
  intros Hs Hc. destruct (app_moveItem_run h s cs args Hs) as (cs'' & _ & Hrun & _).
  rewrite Hc in Hrun. by exists (fresh_objs (length h) cs'').
Qed.

Lemma app_throws (h : heap) s (cs : ColumnsState) args e :
  snapshot_of h s = Some cs → app_contents cs args = Raised e →
  throws (AppTsx.moveItem s args) h e.
Proof.
  intros Hs Hc. destruct (app_moveItem_run h s cs args Hs) as (cs'' & _ & Hrun & _).
  rewrite Hc in Hrun. by exists (fresh_objs (length h) cs'').
Qed.

(** ** The cases of [moveItem] on the contents *)

Lemma p0_contents_absent (cs : ColumnsState) args source :
  col (Part000.from args) cs = Some source →
  Part000.id args ∉ ids source →
  p0_contents cs args
  = Raised (InvariantFailed "Item to move must exist in the source container").
Proof.
  intros Hsrc Habs%absent_not_elem. unfold p0_contents.
  by rewrite Hsrc, (findIndex_list_absent _ _ Habs).
Qed.

Lemma app_contents_absent (cs : ColumnsState) args source :
  col (AppTsx.from args) cs = Some source →
  AppTsx.id args ∉ ids source →
  app_contents cs args = Unchanged.
Proof.
  intros Hsrc Habs%absent_not_elem. unfold app_contents.
  by rewrite Hsrc, (findIndex_list_absent _ _ Habs).
Qed.

Lemma of_nat_eqb_m1 (n : nat) : (Z.of_nat n =? -1)%Z = false.
Proof. apply Z.eqb_neq. lia. Qed.

Lemma p0_contents_found (cs : ColumnsState) args l1 x l2 :
  col (Part000.from args) cs = Some (l1 ++ x :: l2) →
  Part000.id args ∉ ids l1 → Item.id x = Part000.id args →
  p0_contents cs args =
    let cs1 := set_col (Part000.from args) (l1 ++ l2) cs in
    if String.eqb (Part000.beforeId args) "last" then
      insert_at_end (Part000.to args) x cs1
    else
      match col (Part000.to args) cs1 with
      | None => Raised TypeError
      | Some t =>
          let beforeIndex := findIndex_list (has_id (Part000.beforeId args)) t in
          let insertIndex :=
            if (beforeIndex =? -1)%Z then Z.of_nat (length t)
            else if String.eqb (Part000.from args) (Part000.to args)
                    && (Z.of_nat (length l1) <=? beforeIndex)%Z
                 then (beforeIndex + 1)%Z
                 else beforeIndex in
          Replaced (set_col (Part000.to args)
                      (snd (splice_list insertIndex 0 [x] t)) cs1)
      end.
Proof.
  intros Hsrc Hl1%absent_not_elem Hx%has_id_true. unfold p0_contents.
  rewrite Hsrc, (findIndex_list_found _ _ _ _ Hl1 Hx), of_nat_eqb_m1.
  by rewrite splice_list_remove.
Qed.

Lemma app_contents_found (cs : ColumnsState) args l1 x l2 :
  col (AppTsx.from args) cs = Some (l1 ++ x :: l2) →
  AppTsx.id args ∉ ids l1 → Item.id x = AppTsx.id args →
  app_contents cs args =
    let cs1 := set_col (AppTsx.from args) (l1 ++ l2) cs in
    if AppTsx.toEnd args then insert_at_end (AppTsx.to args) x cs1
    else
      match AppTsx.beforeId args with
      | Some b =>
          match col (AppTsx.to args) cs1 with
          | None => Raised TypeError
          | Some t =>
              let beforeIndex := findIndex_list (has_id b) t in
              let insertIndex :=
                if (beforeIndex =? -1)%Z then Z.of_nat (length t)
                else beforeIndex in
              Replaced (set_col (AppTsx.to args)
                          (snd (splice_list insertIndex 0 [x] t)) cs1)
          end
      | None => Replaced cs1
      end.
Proof.
  intros Hsrc Hl1%absent_not_elem Hx%has_id_true. unfold app_contents.
  rewrite Hsrc, (findIndex_list_found _ _ _ _ Hl1 Hx), of_nat_eqb_m1.
  by rewrite splice_list_remove.
Qed.

(** Where the anchor lookup lands in the target sequence. *)
Lemma anchor_found b t1 y t2 :
  b ∉ ids t1 → Item.id y = b →
  findIndex_list (has_id b) (t1 ++ y :: t2) = Z.of_nat (length t1).
Proof.
  intros H1%absent_not_elem Hy%has_id_true. by apply findIndex_list_found.
Qed.

Lemma anchor_absent b t :
  b ∉ ids t → findIndex_list (has_id b) t = (-1)%Z.
Proof. intros H%absent_not_elem. by apply findIndex_list_absent. Qed.

Lemma app_beforeId_Some i f t b :
  b ≠ "" → AppTsx.beforeId (AppTsx.Before i f t (Some b)) = Some b.
Proof. intros Hb%String.eqb_neq. cbn. by rewrite Hb. Qed.

(** ** The moves of the test list, evaluated *)

Lemma returns_new_run (run : JS loc) (h : heap) r new (cs' : ColumnsState) :
  run h = (Normal r, h ++ new) → (length h <=? r)%nat = true →
  snapshot_of (h ++ new) r = Some cs' → returns_new run h cs'.
Proof.
  intros Hrun Hr%Nat.leb_le Hsnap. by exists r, new.
Qed.

(** Cross-container move: [x] from [A] to [B] before [z]. *)
Example cross_container_move :
  returns_new (Part000.moveItem 2%nat (Part000.mkDropInfo "x" "A" "B" "z"))
    heap_AB [("A", [item_y]); ("B", [item_x; item_z])]
  ∧ returns_new (AppTsx.moveItem 2%nat (AppTsx.Before "x" "A" "B" (Some "z")))
      heap_AB [("A", [item_y]); ("B", [item_x; item_z])].
Proof.
  split.
  - by apply (returns_new_run _ _ 5%nat
                [Arr [item_y]; Arr [item_x; item_z];
                 Rec [("A", 3%nat); ("B", 4%nat)]]).
  - by apply (returns_new_run _ _ 5%nat
                [Arr [item_y]; Arr [item_x; item_z];
                 Rec [("A", 3%nat); ("B", 4%nat)]]).
Qed.

(** Append to end: [x] from [A] to the end of [B]. *)
Example append_to_end :
  returns_new (Part000.moveItem 2%nat (Part000.mkDropInfo "x" "A" "B" "last"))
    heap_AB [("A", [item_y]); ("B", [item_z; item_x])]
  ∧ returns_new (AppTsx.moveItem 2%nat (AppTsx.ToEnd "x" "A" "B"))
      heap_AB [("A", [item_y]); ("B", [item_z; item_x])].
Proof.
  split.
  - by apply (returns_new_run _ _ 5%nat
                [Arr [item_y]; Arr [item_z; item_x];
                 Rec [("A", 3%nat); ("B", 4%nat)]]).
  - by apply (returns_new_run _ _ 5%nat
                [Arr [item_y]; Arr [item_z; item_x];
                 Rec [("A", 3%nat); ("B", 4%nat)]]).
Qed.

(** Same-container backward move: [z] before [y]. *)
Example backward_move :
  returns_new (Part000.moveItem 1%nat (Part000.mkDropInfo "z" "A" "A" "y"))
    heap_A [("A", [item_x; item_z; item_y])]
  ∧ returns_new (AppTsx.moveItem 1%nat (AppTsx.Before "z" "A" "A" (Some "y")))
      heap_A [("A", [item_x; item_z; item_y])].
Proof.
  split.
  - by apply (returns_new_run _ _ 3%nat
                [Arr [item_x; item_z; item_y]; Rec [("A", 2%nat)]]).
  - by apply (returns_new_run _ _ 3%nat
                [Arr [item_x; item_z; item_y]; Rec [("A", 2%nat)]]).
Qed.

(** * The claims *)

Lemma col_singleton A (a : list Item) : col A [(A, a)] = Some a.
Proof. unfold col. cbn. by rewrite String.eqb_refl. Qed.

Lemma set_col_singleton A (a a' : list Item) : set_col A a' [(A, a)] = [(A, a')].
Proof. cbn. by rewrite String.eqb_refl. Qed.

(** C1, amended. Moving [x] within [{A: [x, y, z]}] with anchor [z]: the
    variant with the index correction returns [{A: [y, z, x]}] ([x] lands
    behind [z]); [src/src/App.tsx], which has no correction, returns
    [{A: [y, x, z]}] ([x] lands between [y] and [z]). *)
Theorem forward_move_same_container (h : heap) (s : loc) (A : string)
    (x y z : Item) :
  snapshot_of h s = Some [(A, [x; y; z])] →
  Item.id y ≠ Item.id z →
  returns_new
    (Part000.moveItem s (Part000.mkDropInfo (Item.id x) A A (Item.id z)))
    h [(A, [y; z; x])]
  ∧ (Item.id z ≠ "" →
     returns_new
       (AppTsx.moveItem s (AppTsx.Before (Item.id x) A A (Some (Item.id z))))
       h [(A, [y; x; z])]).
Proof.
  intros Hs Hyz.
  assert (Item.id z ∉ ids [y]) as Hz.
  { unfold ids. cbn. rewrite list_elem_of_singleton. congruence. }
  split; [|intros Hne].
  - eapply p0_returns_new; [exact Hs|].
    rewrite (p0_contents_found _ _ [] x [y; z]);
      [|apply col_singleton|apply not_elem_of_nil|done].
    cbn [Part000.from Part000.to Part000.beforeId Part000.id app].
    rewrite set_col_singleton. cbv zeta.
    destruct (String.eqb (Item.id z) "last").
    + unfold insert_at_end. by rewrite col_singleton, set_col_singleton.
    + rewrite col_singleton, (anchor_found _ [y] z []) by done.
      rewrite String.eqb_refl. cbn [length Z.of_nat andb].
      change (Z.of_nat 0 <=? Z.of_nat 1)%Z with true.
      change (Z.of_nat 1 =? -1)%Z with false. cbv iota.
      change (Z.of_nat 1 + 1)%Z with (Z.of_nat (length [y; z])).
      by rewrite splice_list_insert_end, set_col_singleton.
  - eapply app_returns_new; [exact Hs|].
    rewrite (app_contents_found _ _ [] x [y; z]);
      [|apply col_singleton|apply not_elem_of_nil|done].
    rewrite app_beforeId_Some by done.
    cbn [AppTsx.from AppTsx.to AppTsx.toEnd AppTsx.id app].
    rewrite set_col_singleton. cbv zeta.
    rewrite col_singleton, (anchor_found _ [y] z []) by done.
    change (Z.of_nat (length [y]) =? -1)%Z with false. cbv iota.
    pose proof (splice_list_insert_mid x [y] [z]) as Hsp. cbn in Hsp.
    cbn [length Z.of_nat]. by rewrite Hsp, set_col_singleton.
Qed.

Lemma forward_move_same_container_witness :
  returns_new (Part000.moveItem 1%nat (Part000.mkDropInfo "x" "A" "A" "z"))
    heap_A [("A", [item_y; item_z; item_x])]
  ∧ returns_new (AppTsx.moveItem 1%nat (AppTsx.Before "x" "A" "A" (Some "z")))
      heap_A [("A", [item_y; item_x; item_z])].
Proof.
  destruct (forward_move_same_container heap_A 1%nat "A" item_x item_y item_z)
    as [H1 H2]; [reflexivity|discriminate|].
  split; [exact H1|]. apply H2. discriminate.
Defined.

(** C1 as stated fails on the variant with the index correction: the result
    is [{A: [y, z, x]}], not [{A: [y, x, z]}]. *)
Lemma forward_move_counterexample :
  ¬ returns_new (Part000.moveItem 1%nat (Part000.mkDropInfo "x" "A" "A" "z"))
      heap_A [("A", [item_y; item_x; item_z])].
Proof.
  intros (r & new & Hrun & _ & Hsnap).
  vm_compute in Hrun. injection Hrun as <- <-.
  vm_compute in Hsnap. discriminate.
Qed.

(** ** Missing item, missing anchor *)

Lemma p0_missing_anchor (cs : ColumnsState) args l1 x l2 tgt :
  col (Part000.from args) cs = Some (l1 ++ x :: l2) →
  Part000.id args ∉ ids l1 → Item.id x = Part000.id args →
  col (Part000.to args) (set_col (Part000.from args) (l1 ++ l2) cs) = Some tgt →
  Part000.beforeId args ∉ ids tgt →
  p0_contents cs args
  = Replaced (set_col (Part000.to args) (tgt ++ [x])
                (set_col (Part000.from args) (l1 ++ l2) cs)).
Proof.
  intros Hsrc Hl1 Hx Htgt Hb.
  rewrite (p0_contents_found _ _ _ _ _ Hsrc Hl1 Hx). cbv zeta.
  unfold insert_at_end. rewrite Htgt.
  destruct (String.eqb (Part000.beforeId args) "last"); [done|].
  rewrite (anchor_absent _ _ Hb). cbn [Z.eqb Pos.eqb].
  by rewrite splice_list_insert_end.
Qed.

Lemma app_missing_anchor (cs : ColumnsState) args b l1 x l2 tgt :
  col (AppTsx.from args) cs = Some (l1 ++ x :: l2) →
  AppTsx.id args ∉ ids l1 → Item.id x = AppTsx.id args →
  AppTsx.toEnd args = false → AppTsx.beforeId args = Some b →
  col (AppTsx.to args) (set_col (AppTsx.from args) (l1 ++ l2) cs) = Some tgt →
  b ∉ ids tgt →
  app_contents cs args
  = Replaced (set_col (AppTsx.to args) (tgt ++ [x])
                (set_col (AppTsx.from args) (l1 ++ l2) cs)).
Proof.
  intros Hsrc Hl1 Hx HtoEnd Hbefore Htgt Hb.
  rewrite (app_contents_found _ _ _ _ _ Hsrc Hl1 Hx). cbv zeta.
  rewrite HtoEnd, Hbefore, Htgt, (anchor_absent _ _ Hb). cbn [Z.eqb Pos.eqb].
  by rewrite splice_list_insert_end.
Qed.

(** C3, amended. When [args.id] is not in the sequence of [args.from]:
    [src/src/App.tsx] returns the very snapshot it was given, which still
    reads the same; the variant with [invariant] throws
    ["Item to move must exist in the source container"], and the snapshot it
    was given still reads the same. Neither produces a modified snapshot. *)
Theorem item_not_found (h : heap) (s : loc) (cs : ColumnsState) (f i : string)
    (source : list Item) :
  snapshot_of h s = Some cs →
  col f cs = Some source →
  i ∉ ids source →
  (∀ args, AppTsx.from args = f → AppTsx.id args = i →
     ∃ new, AppTsx.moveItem s args h = (Normal s, h ++ new) ∧
            snapshot_of (h ++ new) s = Some cs)
  ∧ (∀ args, Part000.from args = f → Part000.id args = i →
     ∃ new, Part000.moveItem s args h
            = (Throw (InvariantFailed
                        "Item to move must exist in the source container"),
               h ++ new) ∧
            snapshot_of (h ++ new) s = Some cs).
Proof.
  intros Hs Hsrc Habs. split; intros args <- <-.
  - destruct (app_returns_same h s cs args Hs) as [new Hrun].
    { by eapply app_contents_absent. }
    exists new. split; [done|]. by apply snapshot_of_app.
  - destruct (p0_throws h s cs args _ Hs (p0_contents_absent _ _ _ Hsrc Habs))
      as [new Hrun].
    exists new. split; [done|]. by apply snapshot_of_app.
Qed.

Lemma item_not_found_witness :
  (∃ new, AppTsx.moveItem 2%nat (AppTsx.ToEnd "z" "A" "B") heap_AB
          = (Normal 2%nat, heap_AB ++ new) ∧
          snapshot_of (heap_AB ++ new) 2%nat
          = Some [("A", [item_x; item_y]); ("B", [item_z])])
  ∧ (∃ new, Part000.moveItem 2%nat (Part000.mkDropInfo "z" "A" "B" "last") heap_AB
            = (Throw (InvariantFailed
                        "Item to move must exist in the source container"),
               heap_AB ++ new) ∧
            snapshot_of (heap_AB ++ new) 2%nat
            = Some [("A", [item_x; item_y]); ("B", [item_z])]).
Proof.
  destruct (item_not_found heap_AB 2%nat
              [("A", [item_x; item_y]); ("B", [item_z])] "A" "z"
              [item_x; item_y]) as [Happ Hp0].
  - reflexivity.
  - reflexivity.
  - by apply absent_check.
  - split; [apply (Happ (AppTsx.ToEnd "z" "A" "B")); reflexivity|].
    apply (Hp0 (Part000.mkDropInfo "z" "A" "B" "last")); reflexivity.
Defined.

(** C3 as stated fails on the variant with [invariant]: the call does not
    complete, it throws. *)
Lemma item_not_found_counterexample :
  ¬ ∃ r h', Part000.moveItem 2%nat (Part000.mkDropInfo "z" "A" "B" "last") heap_AB
            = (Normal r, h').
Proof. intros (r & h' & Hrun). vm_compute in Hrun. discriminate. Qed.

Lemma not_elem_of_ids_app k (a b : list Item) :
  k ∉ ids a → k ∉ ids b → k ∉ ids (a ++ b).
Proof.
  unfold ids. rewrite fmap_app, elem_of_app. tauto.
Qed.

Lemma not_elem_of_ids_app_inv k (a b : list Item) :
  k ∉ ids (a ++ b) → (k ∉ ids a) ∧ (k ∉ ids b).
Proof.
  unfold ids. rewrite fmap_app, elem_of_app. tauto.
Qed.

(** C5. When the item is in the source sequence and the anchor id is not in
    the target sequence (as it is once the item has been taken out),
    [moveItem] returns a new snapshot with the item appended to the target
    sequence. In [src/src/App.tsx] the anchor is the [beforeId] of the
    request, a non-empty string. *)
Theorem missing_anchor_appends (h : heap) (s : loc) (cs : ColumnsState)
    (f t i b : string) (l1 l2 tgt : list Item) (x : Item) :
  snapshot_of h s = Some cs →
  col f cs = Some (l1 ++ x :: l2) →
  i ∉ ids l1 →
  Item.id x = i →
  col t (set_col f (l1 ++ l2) cs) = Some tgt →
  b ∉ ids tgt →
  returns_new (Part000.moveItem s (Part000.mkDropInfo i f t b)) h
    (set_col t (tgt ++ [x]) (set_col f (l1 ++ l2) cs))
  ∧ (b ≠ "" →
     returns_new (AppTsx.moveItem s (AppTsx.Before i f t (Some b))) h
       (set_col t (tgt ++ [x]) (set_col f (l1 ++ l2) cs))).
Proof.
  intros Hs Hsrc Hl1 Hx Htgt Hb. split; [|intros Hne].
  - eapply p0_returns_new; [exact Hs|].
    by apply (p0_missing_anchor cs (Part000.mkDropInfo i f t b) l1 x l2 tgt).
  - eapply app_returns_new; [exact Hs|].
    apply (app_missing_anchor cs (AppTsx.Before i f t (Some b)) b l1 x l2 tgt);
      try done.
    by apply app_beforeId_Some.
Qed.

Lemma missing_anchor_appends_witness :
  returns_new (Part000.moveItem 2%nat (Part000.mkDropInfo "x" "A" "B" "q"))
    heap_AB [("A", [item_y]); ("B", [item_z; item_x])]
  ∧ returns_new (AppTsx.moveItem 2%nat (AppTsx.Before "x" "A" "B" (Some "q")))
      heap_AB [("A", [item_y]); ("B", [item_z; item_x])].
Proof.
  destruct (missing_anchor_appends heap_AB 2%nat
              [("A", [item_x; item_y]); ("B", [item_z])]
              "A" "B" "x" "q" [] [item_y] [item_z] item_x) as [H1 H2].
  - reflexivity.
  - reflexivity.
  - by apply absent_check.
  - reflexivity.
  - reflexivity.
  - by apply absent_check.
  - split; [exact H1|]. apply H2. discriminate.
Defined.

(** C8. A same-container request whose anchor is the id of the moved item
    itself: once the item (the only one with that id in the container) has
    been taken out, the anchor lookup finds nothing and the item is appended
    at the end of the container. In [src/src/App.tsx] the anchor counts only
    when it is a non-empty string. *)
Theorem move_before_itself (h : heap) (s : loc) (cs : ColumnsState) (k i : string)
    (l1 l2 : list Item) (x : Item) :
  snapshot_of h s = Some cs →
  col k cs = Some (l1 ++ x :: l2) →
  Item.id x = i →
  i ∉ ids l1 →
  i ∉ ids l2 →
  returns_new (Part000.moveItem s (Part000.mkDropInfo i k k i)) h
    (set_col k (l1 ++ l2 ++ [x]) cs)
  ∧ (i ≠ "" →
     returns_new (AppTsx.moveItem s (AppTsx.Before i k k (Some i))) h
       (set_col k (l1 ++ l2 ++ [x]) cs)).
Proof.
  intros Hs Hsrc Hx Hl1 Hl2.
  assert (col k (set_col k (l1 ++ l2) cs) = Some (l1 ++ l2)) as Htgt
    by (apply col_set_col_eq; by eexists).
  assert (i ∉ ids (l1 ++ l2)) as Hb by by apply not_elem_of_ids_app.
  assert (set_col k ((l1 ++ l2) ++ [x]) (set_col k (l1 ++ l2) cs)
          = set_col k (l1 ++ l2 ++ [x]) cs) as Heq
    by by rewrite set_col_set_col, <- app_assoc.
  rewrite <- Heq. split; [|intros Hne].
  - eapply p0_returns_new; [exact Hs|].
    by apply (p0_missing_anchor cs (Part000.mkDropInfo i k k i) l1 x l2).
  - eapply app_returns_new; [exact Hs|].
    apply (app_missing_anchor cs (AppTsx.Before i k k (Some i)) i l1 x l2);
      try done.
    by apply app_beforeId_Some.
Qed.

Lemma move_before_itself_witness :
  returns_new (Part000.moveItem 1%nat (Part000.mkDropInfo "x" "A" "A" "x"))
    heap_A [("A", [item_y; item_z; item_x])]
  ∧ returns_new (AppTsx.moveItem 1%nat (AppTsx.Before "x" "A" "A" (Some "x")))
      heap_A [("A", [item_y; item_z; item_x])].
Proof.
  destruct (move_before_itself heap_A 1%nat [("A", [item_x; item_y; item_z])]
              "A" "x" [] [item_y; item_z] item_x) as [H1 H2].
  - reflexivity.
  - reflexivity.
  - reflexivity.
  - by apply absent_check.
  - by apply absent_check.
  - split; [exact H1|]. apply H2. discriminate.
Defined.

(** ** The index correction *)

(** The item sits at or before the anchor in the sequence as it was exactly
    when it sits at or before the anchor's position once it is taken out. *)
Lemma anchor_index_before_after b l1 x l2 t1 y t2 :
  l1 ++ l2 = t1 ++ y :: t2 → b ∉ ids t1 → Item.id y = b →
  (Z.of_nat (length l1) <=? findIndex_list (has_id b) (l1 ++ x :: l2))%Z
  = (Z.of_nat (length l1) <=? Z.of_nat (length t1))%Z.
Proof.
  intros Heq Ht1 Hy.
  destruct (app_eq_inv _ _ _ _ Heq) as [(k & -> & Hk)|(k & -> & ->)].
  - destruct k as [|y' k]; cbn in Hk.
    + subst l2. rewrite app_nil_r.
      destruct (has_id b x) eqn:Hx.
      * rewrite findIndex_list_found; [done|by apply absent_not_elem|done].
      * replace (t1 ++ x :: y :: t2) with ((t1 ++ [x]) ++ y :: t2)
          by (by rewrite <- app_assoc).
        rewrite (findIndex_list_found _ (t1 ++ [x]) y t2).
        -- rewrite length_app. cbn. apply eq_trans with true;
             [|symmetry]; apply Z.leb_le; lia.
        -- apply Forall_app. split; [by apply absent_not_elem|].
           by constructor.
        -- by apply has_id_true.
    + injection Hk as <- ->.
      rewrite <- (app_assoc t1 (y :: k) (x :: l2)). cbn [app].
      rewrite (anchor_found b t1 y) by done.
      rewrite length_app. cbn. apply eq_trans with false;
        [|symmetry]; apply Z.leb_gt; lia.
  - apply not_elem_of_ids_app_inv in Ht1 as [Hl1 Hk].
    rewrite length_app.
    apply eq_trans with true; [|symmetry; apply Z.leb_le; lia].
    apply Z.leb_le. destruct (has_id b x) eqn:Hx.
    + rewrite findIndex_list_found; [lia|by apply absent_not_elem|done].
    + replace (l1 ++ x :: k ++ y :: t2) with ((l1 ++ x :: k) ++ y :: t2)
        by (by rewrite <- app_assoc).
      rewrite (findIndex_list_found _ (l1 ++ x :: k) y t2).
      * rewrite length_app. lia.
      * apply Forall_app. split; [by apply absent_not_elem|].
        constructor; [done|by apply absent_not_elem].
      * by apply has_id_true.
Qed.

Lemma splice_list_insert_after item t1 y t2 :
  splice_list (Z.of_nat (length t1) + 1) 0 [item] (t1 ++ y :: t2)
  = ([], t1 ++ y :: item :: t2).
Proof.
  pose proof (splice_list_insert_mid item (t1 ++ [y]) t2) as H.
  rewrite length_app, <- !app_assoc in H. cbn in H.
  by replace (Z.of_nat (length t1 + 1)) with (Z.of_nat (length t1) + 1)%Z
    in H by lia.
Qed.

Lemma p0_same_container_anchor (cs : ColumnsState) k i b l1 x l2 t1 y t2 :
  col k cs = Some (l1 ++ x :: l2) → i ∉ ids l1 → Item.id x = i →
  b ≠ "last" →
  l1 ++ l2 = t1 ++ y :: t2 → b ∉ ids t1 → Item.id y = b →
  p0_contents cs (Part000.mkDropInfo i k k b)
  = Replaced
      (set_col k
         (snd (splice_list
                 (if (Z.of_nat (length l1) <=? Z.of_nat (length t1))%Z
                  then Z.of_nat (length t1) + 1 else Z.of_nat (length t1))%Z
                 0 [x] (l1 ++ l2))) cs).
Proof.
  intros Hsrc Hl1 Hx Hb Heq Ht1 Hy.
  rewrite (p0_contents_found _ _ l1 x l2) by done.
  cbn [Part000.from Part000.to Part000.beforeId]. cbv zeta.
  apply String.eqb_neq in Hb. rewrite Hb.
  rewrite col_set_col_eq by by eexists.
  assert (findIndex_list (has_id b) (l1 ++ l2) = Z.of_nat (length t1)) as ->
    by (rewrite Heq; by apply anchor_found).
  rewrite of_nat_eqb_m1, String.eqb_refl. cbn [andb].
  by rewrite set_col_set_col.
Qed.

(** C2, amended. In the variant with the index correction, for a
    same-container move whose anchor is found in the sequence once the item
    is taken out: when the item's index in the sequence as it was is at or
    before the anchor's index there, the item is inserted one past the
    anchor's new position, and so lands right behind the anchor; otherwise it
    is inserted at the anchor's new position, right before the anchor. In
    particular moving [a] with the anchor [b] that follows it turns
    [... a, b ...] into [... b, a ...]. ([src/src/App.tsx] has no such
    correction.) *)
Theorem same_container_tie_break (h : heap) (s : loc) (cs : ColumnsState) (k : string) :
  snapshot_of h s = Some cs →
  (∀ i b l1 x l2 t1 y t2,
     col k cs = Some (l1 ++ x :: l2) → i ∉ ids l1 → Item.id x = i →
     b ≠ "last" →
     l1 ++ l2 = t1 ++ y :: t2 → b ∉ ids t1 → Item.id y = b →
     let idx := findIndex_list (has_id i) (l1 ++ x :: l2) in
     let anchorBefore := findIndex_list (has_id b) (l1 ++ x :: l2) in
     let anchorAfter := findIndex_list (has_id b) (l1 ++ l2) in
     let insertIndex :=
       if (idx <=? anchorBefore)%Z then (anchorAfter + 1)%Z else anchorAfter in
     returns_new (Part000.moveItem s (Part000.mkDropInfo i k k b)) h
       (set_col k (snd (splice_list insertIndex 0 [x] (l1 ++ l2))) cs)
     ∧ snd (splice_list insertIndex 0 [x] (l1 ++ l2))
       = (if (idx <=? anchorBefore)%Z then t1 ++ y :: x :: t2
          else t1 ++ x :: y :: t2))
  ∧ (∀ l1 a b l2,
       col k cs = Some (l1 ++ a :: b :: l2) →
       Item.id a ∉ ids l1 → Item.id b ∉ ids l1 → Item.id b ≠ "last" →
       returns_new
         (Part000.moveItem s (Part000.mkDropInfo (Item.id a) k k (Item.id b)))
         h (set_col k (l1 ++ b :: a :: l2) cs)).
Proof.
  intros Hs. split.
  - intros i b l1 x l2 t1 y t2 Hsrc Hl1 Hx Hb Heq Ht1 Hy. cbv zeta.
    rewrite (findIndex_list_found (has_id i) l1 x l2);
      [|by apply absent_not_elem|by apply has_id_true].
    rewrite (anchor_index_before_after b l1 x l2 t1 y t2) by done.
    assert (findIndex_list (has_id b) (l1 ++ l2) = Z.of_nat (length t1)) as ->
      by (rewrite Heq; by apply anchor_found).
    split.
    + eapply p0_returns_new; [exact Hs|].
      rewrite (p0_same_container_anchor cs k i b l1 x l2 t1 y t2) by done.
      by rewrite Heq.
    + rewrite Heq. destruct (_ <=? _)%Z.
      * by rewrite splice_list_insert_after.
      * by rewrite splice_list_insert_mid.
  - intros l1 a b l2 Hsrc Ha Hb Hlast.
    eapply p0_returns_new; [exact Hs|].
    rewrite (p0_same_container_anchor cs k _ _ l1 a (b :: l2) l1 b l2) by done.
    rewrite Z.leb_refl. by rewrite splice_list_insert_after.
Qed.

Lemma same_container_tie_break_witness :
  returns_new (Part000.moveItem 1%nat (Part000.mkDropInfo "z" "A" "A" "x"))
    heap_A [("A", [item_z; item_x; item_y])]
  ∧ returns_new (Part000.moveItem 1%nat (Part000.mkDropInfo "x" "A" "A" "y"))
      heap_A [("A", [item_y; item_x; item_z])].
Proof.
  destruct (same_container_tie_break heap_A 1%nat
              [("A", [item_x; item_y; item_z])] "A" eq_refl) as [H1 H2].
  split.
  - refine (proj1 (H1 "z" "x" [item_x; item_y] item_z [] [] item_x [item_y]
                     eq_refl _ eq_refl _ eq_refl _ eq_refl)).
    + by apply absent_check.
    + discriminate.
    + by apply absent_check.
  - refine (H2 [] item_x item_y [item_z] eq_refl _ _ _).
    + by apply absent_check.
    + by apply absent_check.
    + discriminate.
Defined.

(** C2 as stated fails on [src/src/App.tsx]: moving [x] with the anchor [y]
    that follows it leaves [{A: [x, y], B: [z]}] as it is. *)
Lemma same_container_tie_break_counterexample :
  returns_new (AppTsx.moveItem 2%nat (AppTsx.Before "x" "A" "A" (Some "y")))
    heap_AB [("A", [item_x; item_y]); ("B", [item_z])]
  ∧ ¬ returns_new (AppTsx.moveItem 2%nat (AppTsx.Before "x" "A" "A" (Some "y")))
        heap_AB [("A", [item_y; item_x]); ("B", [item_z])].
Proof.
  split.
  - eexists _, _. split; [by vm_compute|]. split; [cbn; lia|by vm_compute].
  - intros (r & new & Hrun & _ & Hsnap).
    vm_compute in Hrun. injection Hrun as <- <-.
    vm_compute in Hsnap. discriminate.
Qed.

(** ** Which results are possible *)

(** What [moveItem] does once the item is found, for both variants: the
    item leaves the source sequence, and either the target is missing, or
    the item is put somewhere into the target sequence, or ([App.tsx] with
    neither [toEnd] nor a non-empty [beforeId]) it is put nowhere. *)
Lemma p0_contents_found_cases (cs : ColumnsState) args l1 x l2 :
  col (Part000.from args) cs = Some (l1 ++ x :: l2) →
  Part000.id args ∉ ids l1 → Item.id x = Part000.id args →
  let cs1 := set_col (Part000.from args) (l1 ++ l2) cs in
  (col (Part000.to args) cs1 = None ∧ p0_contents cs args = Raised TypeError)
  ∨ (∃ t t', col (Part000.to args) cs1 = Some t ∧ t' ≡ₚ x :: t ∧
             p0_contents cs args = Replaced (set_col (Part000.to args) t' cs1)).
Proof.
  intros Hsrc Hl1 Hx cs1.
  rewrite (p0_contents_found _ _ _ _ _ Hsrc Hl1 Hx). cbv zeta. fold cs1.
  unfold insert_at_end.
  destruct (col (Part000.to args) cs1) as [t|];
    [right|left; by destruct (String.eqb _ _)].
  destruct (String.eqb _ _).
  - exists t, (t ++ [x]). split; [done|]. split; [|done].
    by rewrite Permutation_app_comm.
  - eexists t, _. split; [done|]. split; [|done].
    apply splice_list_insert_perm.
Qed.

Lemma app_contents_found_cases (cs : ColumnsState) args l1 x l2 :
  col (AppTsx.from args) cs = Some (l1 ++ x :: l2) →
  AppTsx.id args ∉ ids l1 → Item.id x = AppTsx.id args →
  let cs1 := set_col (AppTsx.from args) (l1 ++ l2) cs in
  if AppTsx.toEnd args || bool_decide (is_Some (AppTsx.beforeId args)) then
    (col (AppTsx.to args) cs1 = None ∧ app_contents cs args = Raised TypeError)
    ∨ (∃ t t', col (AppTsx.to args) cs1 = Some t ∧ t' ≡ₚ x :: t ∧
               app_contents cs args = Replaced (set_col (AppTsx.to args) t' cs1))
  else app_contents cs args = Replaced cs1.
Proof.
  intros Hsrc Hl1 Hx cs1.
  rewrite (app_contents_found _ _ _ _ _ Hsrc Hl1 Hx). cbv zeta. fold cs1.
  unfold insert_at_end.
  destruct (AppTsx.toEnd args); cbn [orb].
  - destruct (col (AppTsx.to args) cs1) as [t|]; [right|by left].
    exists t, (t ++ [x]). split; [done|]. split; [|done].
    by rewrite Permutation_app_comm.
  - destruct (AppTsx.beforeId args) as [b|]; [|done].
    rewrite bool_decide_eq_true_2 by by eexists.
    destruct (col (AppTsx.to args) cs1) as [t|]; [right|by left].
    eexists t, _. split; [done|]. split; [|done].
    apply splice_list_insert_perm.
Qed.

Lemma all_items_remove f (cs : ColumnsState) l1 x l2 :
  col f cs = Some (l1 ++ x :: l2) →
  all_items cs ≡ₚ x :: all_items (set_col f (l1 ++ l2) cs).
Proof.
  intros Hsrc.
  destruct (all_items_set_col f cs _ (l1 ++ l2) Hsrc) as (pre & post & -> & ->).
  rewrite <- !app_assoc. cbn [app].
  rewrite (Permutation_middle pre). apply Permutation_app_head.
  by rewrite (Permutation_middle l1).
Qed.

Lemma all_items_insert t (cs : ColumnsState) a a' x :
  col t cs = Some a → a' ≡ₚ x :: a →
  all_items (set_col t a' cs) ≡ₚ x :: all_items cs.
Proof.
  intros Htgt Ha'.
  destruct (all_items_set_col t cs _ a' Htgt) as (pre & post & -> & ->).
  rewrite Ha'. cbn [app]. by rewrite <- Permutation_middle.
Qed.

(** ** From a run back to the contents *)

Lemma p0_normal_inv (h : heap) s (cs : ColumnsState) args r h' :
  snapshot_of h s = Some cs →
  Part000.moveItem s args h = (Normal r, h') →
  ∃ cs', p0_contents cs args = Replaced cs' ∧
         r = (length h + length cs)%nat ∧ length cs' = length cs ∧
         h' = h ++ fresh_objs (length h) cs' ∧
         snapshot_of h' r = Some cs'.
Proof.
  intros Hs Hrun.
  destruct (p0_moveItem_run h s cs args Hs) as (cs'' & Hlen & Hrun' & Heq).
  rewrite Hrun in Hrun'.
  destruct (p0_contents cs args) as [|cs'|e] eqn:Hc; cbn in Hrun'.
  - exfalso. unfold p0_contents in Hc.
    repeat (match type of Hc with
            | context [match ?d with _ => _ end] => destruct d
            | context [if ?d then _ else _] => destruct d
            end; try discriminate);
    unfold insert_at_end in Hc;
    repeat (match type of Hc with
            | context [match ?d with _ => _ end] => destruct d
            end; try discriminate).
  - injection Hrun' as -> ->. rewrite (Heq cs' eq_refl) in *.
    exists cs'. repeat split; try done. by apply snapshot_of_cloned.
  - discriminate.
Qed.

Lemma app_normal_inv (h : heap) s (cs : ColumnsState) args r h' :
  snapshot_of h s = Some cs →
  AppTsx.moveItem s args h = (Normal r, h') →
  (app_contents cs args = Unchanged ∧ r = s ∧ ∃ new, h' = h ++ new)
  ∨ (∃ cs', app_contents cs args = Replaced cs' ∧
            r = (length h + length cs)%nat ∧ length cs' = length cs ∧
            h' = h ++ fresh_objs (length h) cs' ∧
            snapshot_of h' r = Some cs').
Proof.
  intros Hs Hrun.
  destruct (app_moveItem_run h s cs args Hs) as (cs'' & Hlen & Hrun' & Heq).
  rewrite Hrun in Hrun'.
  destruct (app_contents cs args) as [|cs'|e] eqn:Hc; cbn in Hrun'.
  - left. injection Hrun' as -> ->. split; [done|]. split; [done|].
    by eexists.
  - right. injection Hrun' as -> ->. rewrite (Heq cs' eq_refl) in *.
    exists cs'. repeat split; try done. by apply snapshot_of_cloned.
  - discriminate.
Qed.

Lemma run_heap_extends_p0 (h : heap) s (cs : ColumnsState) args :
  snapshot_of h s = Some cs →
  ∃ new, snd (Part000.moveItem s args h) = h ++ new.
Proof.
  intros Hs.
  destruct (p0_moveItem_run h s cs args Hs) as (cs'' & _ & -> & _).
  by eexists.
Qed.

Lemma run_heap_extends_app (h : heap) s (cs : ColumnsState) args :
  snapshot_of h s = Some cs →
  ∃ new, snd (AppTsx.moveItem s args h) = h ++ new.
Proof.
  intros Hs.
  destruct (app_moveItem_run h s cs args Hs) as (cs'' & _ & -> & _).
  by eexists.
Qed.

(** C9. In [src/src/App.tsx], a request with neither [toEnd] nor a non-empty
    [beforeId] whose item is in the source sequence returns a new snapshot in
    which the item has left the source sequence and every other container is
    as it was: the store has lost exactly that item, and an id that was
    unique in the store appears nowhere any more. The target key is never
    looked at. *)
Theorem item_vanishes_without_anchor (h : heap) (s : loc) (cs : ColumnsState)
    (f t i : string) (beforeId : option string) (l1 l2 : list Item) (x : Item) :
  snapshot_of h s = Some cs →
  col f cs = Some (l1 ++ x :: l2) →
  i ∉ ids l1 →
  Item.id x = i →
  beforeId = None ∨ beforeId = Some "" →
  returns_new (AppTsx.moveItem s (AppTsx.Before i f t beforeId)) h
    (set_col f (l1 ++ l2) cs)
  ∧ all_items cs ≡ₚ x :: all_items (set_col f (l1 ++ l2) cs)
  ∧ (∀ k, k ≠ f → col k (set_col f (l1 ++ l2) cs) = col k cs)
  ∧ (NoDup (ids (all_items cs)) →
     i ∉ ids (all_items (set_col f (l1 ++ l2) cs))).
Proof.
  intros Hs Hsrc Hl1 Hx Hbefore.
  pose proof (all_items_remove f cs l1 x l2 Hsrc) as Hperm.
  split; [|split; [done|split]].
  - eapply app_returns_new; [exact Hs|].
    rewrite (app_contents_found _ _ l1 x l2) by done. cbv zeta.
    by destruct Hbefore as [-> | ->].
  - intros k Hk. by apply col_set_col_ne.
  - intros Hnodup. unfold ids in *. rewrite Hperm, fmap_cons, Hx in Hnodup.
    by apply NoDup_cons in Hnodup as [? _].
Qed.

Lemma item_vanishes_without_anchor_witness :
  returns_new (AppTsx.moveItem 2%nat (AppTsx.Before "x" "A" "B" None)) heap_AB
    [("A", [item_y]); ("B", [item_z])]
  ∧ returns_new (AppTsx.moveItem 2%nat (AppTsx.Before "x" "A" "B" (Some "")))
      heap_AB [("A", [item_y]); ("B", [item_z])].
Proof.
  split.
  - refine (proj1 (item_vanishes_without_anchor heap_AB 2%nat
                     [("A", [item_x; item_y]); ("B", [item_z])]
                     "A" "B" "x" None [] [item_y] item_x
                     eq_refl eq_refl _ eq_refl (or_introl eq_refl))).
    by apply absent_check.
  - refine (proj1 (item_vanishes_without_anchor heap_AB 2%nat
                     [("A", [item_x; item_y]); ("B", [item_z])]
                     "A" "B" "x" (Some "") [] [item_y] item_x
                     eq_refl eq_refl _ eq_refl (or_intror eq_refl))).
    by apply absent_check.
Defined.

(** ** Missing container keys *)

Lemma col_set_col_None k k' a (cs : ColumnsState) :
  col k' cs = None → col k' (set_col k a cs) = None.
Proof.
  intros Hnone. apply eq_None_not_Some. rewrite col_set_col_is_Some.
  by rewrite Hnone; intros [? ?].
Qed.

Lemma app_contents_total (cs : ColumnsState) args :
  is_Some (col (AppTsx.from args) cs) → is_Some (col (AppTsx.to args) cs) →
  app_contents cs args = Unchanged ∨ ∃ cs', app_contents cs args = Replaced cs'.
Proof.
  intros [source Hsrc] Hto.
  destruct (findIndex_list_cases (has_id (AppTsx.id args)) source)
    as [[Habs _]|(l1 & x & l2 & -> & Hl1 & Hx & _)].
  - left. apply (app_contents_absent _ _ _ Hsrc). by apply absent_not_elem.
  - right. apply absent_not_elem in Hl1. apply has_id_true in Hx.
    pose proof (app_contents_found_cases cs args l1 x l2 Hsrc Hl1 Hx) as H.
    cbv zeta in H. destruct (_ || _); [|by eexists].
    destruct H as [[Hnone _]|(t & t' & _ & _ & ->)]; [|by eexists].
    apply (col_set_col_is_Some (AppTsx.from args) _ (l1 ++ l2)) in Hto.
    rewrite Hnone in Hto. by destruct Hto.
Qed.

(** C10. [moveItem] reads [state[args.from]] and [state[args.to]] without
    checking the keys. With both keys in the snapshot, [src/src/App.tsx]
    completes without throwing. With [args.from] missing, both variants
    throw a [TypeError]; with [args.to] missing and the item found, they
    throw a [TypeError] as soon as the target is used ([App.tsx]: when the
    request has [toEnd] or a non-empty [beforeId]). *)
Theorem missing_container_key (h : heap) (s : loc) (cs : ColumnsState) :
  snapshot_of h s = Some cs →
  (∀ args,
     is_Some (col (AppTsx.from args) cs) → is_Some (col (AppTsx.to args) cs) →
     ∃ r h', AppTsx.moveItem s args h = (Normal r, h'))
  ∧ (∀ args, col (AppTsx.from args) cs = None →
       throws (AppTsx.moveItem s args) h TypeError)
  ∧ (∀ args, col (Part000.from args) cs = None →
       throws (Part000.moveItem s args) h TypeError)
  ∧ (∀ args source,
       col (AppTsx.from args) cs = Some source →
       AppTsx.id args ∈ ids source →
       col (AppTsx.to args) cs = None →
       AppTsx.toEnd args = true ∨ is_Some (AppTsx.beforeId args) →
       throws (AppTsx.moveItem s args) h TypeError)
  ∧ (∀ args source,
       col (Part000.from args) cs = Some source →
       Part000.id args ∈ ids source →
       col (Part000.to args) cs = None →
       throws (Part000.moveItem s args) h TypeError).
Proof.
  intros Hs. repeat split.
  - intros args Hfrom Hto.
    destruct (app_contents_total cs args Hfrom Hto) as [Hc|[cs' Hc]].
    + destruct (app_returns_same h s cs args Hs Hc) as [new Hrun]. eauto.
    + destruct (app_returns_new h s cs cs' args Hs Hc) as (r & new & Hrun & _).
      eauto.
  - intros args Hfrom. apply (app_throws h s cs args _ Hs).
    unfold app_contents. by rewrite Hfrom.
  - intros args Hfrom. apply (p0_throws h s cs args _ Hs).
    unfold p0_contents. by rewrite Hfrom.
  - intros args source Hsrc (l1 & x & l2 & -> & Hl1 & Hx)%first_occurrence
      Hto Hanchor.
    apply (app_throws h s cs args _ Hs).
    pose proof (app_contents_found_cases cs args l1 x l2 Hsrc Hl1 Hx) as H.
    cbv zeta in H.
    assert (AppTsx.toEnd args || bool_decide (is_Some (AppTsx.beforeId args))
            = true) as Ht.
    { destruct Hanchor as [-> | Hb]; [done|].
      rewrite (bool_decide_eq_true_2 _ Hb). by destruct (AppTsx.toEnd args). }
    rewrite Ht in H. destruct H as [[_ ->]|(t & t' & Hsome & _)]; [done|].
    by rewrite col_set_col_None in Hsome.
  - intros args source Hsrc (l1 & x & l2 & -> & Hl1 & Hx)%first_occurrence Hto.
    apply (p0_throws h s cs args _ Hs).
    destruct (p0_contents_found_cases cs args l1 x l2 Hsrc Hl1 Hx)
      as [[_ ->]|(t & t' & Hsome & _)]; [done|].
    by rewrite col_set_col_None in Hsome.
Qed.

Lemma missing_container_key_witness :
  (∃ r h', AppTsx.moveItem 2%nat (AppTsx.ToEnd "x" "A" "B") heap_AB
           = (Normal r, h'))
  ∧ throws (AppTsx.moveItem 2%nat (AppTsx.ToEnd "x" "C" "B")) heap_AB TypeError
  ∧ throws (Part000.moveItem 2%nat (Part000.mkDropInfo "x" "C" "B" "last"))
      heap_AB TypeError
  ∧ throws (AppTsx.moveItem 2%nat (AppTsx.ToEnd "x" "A" "C")) heap_AB TypeError
  ∧ throws (Part000.moveItem 2%nat (Part000.mkDropInfo "x" "A" "C" "last"))
      heap_AB TypeError.
Proof.
  destruct (missing_container_key heap_AB 2%nat
              [("A", [item_x; item_y]); ("B", [item_z])] eq_refl)
    as (H1 & H2 & H3 & H4 & H5).
  assert ("x" ∈ ids [item_x; item_y]) as Hin by (vm_compute; left).
  repeat split.
  - apply (H1 (AppTsx.ToEnd "x" "A" "B")); by eexists.
  - by apply (H2 (AppTsx.ToEnd "x" "C" "B")).
  - by apply (H3 (Part000.mkDropInfo "x" "C" "B" "last")).
  - apply (H4 (AppTsx.ToEnd "x" "A" "C") [item_x; item_y]); try done.
    by left.
  - by apply (H5 (Part000.mkDropInfo "x" "A" "C" "last") [item_x; item_y]).
Defined.

(** ** The shape of a replaced snapshot *)

Lemma p0_replaced_shape (cs cs' : ColumnsState) args :
  p0_contents cs args = Replaced cs' →
  ∃ l1 x l2 t t',
    col (Part000.from args) cs = Some (l1 ++ x :: l2) ∧
    (Part000.id args ∉ ids l1) ∧ Item.id x = Part000.id args ∧
    col (Part000.to args) (set_col (Part000.from args) (l1 ++ l2) cs) = Some t ∧
    t' ≡ₚ x :: t ∧
    cs' = set_col (Part000.to args) t'
            (set_col (Part000.from args) (l1 ++ l2) cs).
Proof.
  intros Hc.
  destruct (col (Part000.from args) cs) as [source|] eqn:Hsrc;
    [|unfold p0_contents in Hc; by rewrite Hsrc in Hc].
  destruct (findIndex_list_cases (has_id (Part000.id args)) source)
    as [[Habs%absent_not_elem _]|(l1 & x & l2 & -> & Hl1 & Hx & _)].
  { by rewrite (p0_contents_absent _ _ _ Hsrc Habs) in Hc. }
  apply absent_not_elem in Hl1. apply has_id_true in Hx.
  destruct (p0_contents_found_cases cs args l1 x l2 Hsrc Hl1 Hx)
    as [[_ Hr]|(t & t' & Ht & Hperm & Hr)]; rewrite Hr in Hc; [done|].
  injection Hc as <-. by exists l1, x, l2, t, t'.
Qed.

Lemma app_replaced_shape (cs cs' : ColumnsState) args :
  app_contents cs args = Replaced cs' →
  ∃ l1 x l2,
    col (AppTsx.from args) cs = Some (l1 ++ x :: l2) ∧
    (AppTsx.id args ∉ ids l1) ∧ Item.id x = AppTsx.id args ∧
    if AppTsx.toEnd args || bool_decide (is_Some (AppTsx.beforeId args)) then
      ∃ t t',
        col (AppTsx.to args) (set_col (AppTsx.from args) (l1 ++ l2) cs) = Some t ∧
        t' ≡ₚ x :: t ∧
        cs' = set_col (AppTsx.to args) t'
                (set_col (AppTsx.from args) (l1 ++ l2) cs)
    else cs' = set_col (AppTsx.from args) (l1 ++ l2) cs.
Proof.
  intros Hc.
  destruct (col (AppTsx.from args) cs) as [source|] eqn:Hsrc;
    [|unfold app_contents in Hc; by rewrite Hsrc in Hc].
  destruct (findIndex_list_cases (has_id (AppTsx.id args)) source)
    as [[Habs%absent_not_elem _]|(l1 & x & l2 & -> & Hl1 & Hx & _)].
  { by rewrite (app_contents_absent _ _ _ Hsrc Habs) in Hc. }
  apply absent_not_elem in Hl1. apply has_id_true in Hx.
  exists l1, x, l2. do 3 (split; [done|]).
  pose proof (app_contents_found_cases cs args l1 x l2 Hsrc Hl1 Hx) as H.
  cbv zeta in H. destruct (_ || _).
  - destruct H as [[_ Hr]|(t & t' & Ht & Hperm & Hr)]; rewrite Hr in Hc; [done|].
    injection Hc as <-. by exists t, t'.
  - rewrite H in Hc. by injection Hc as <-.
Qed.

Lemma set_col_twice_frame f t a b (cs : ColumnsState) :
  (set_col t b (set_col f a cs)).*1 = cs.*1 ∧
  ∀ k, k ≠ f → k ≠ t → col k (set_col t b (set_col f a cs)) = col k cs.
Proof.
  split; [by rewrite !set_col_keys|].
  intros k Hf Ht. by rewrite !col_set_col_ne.
Qed.

Lemma p0_replaced_frame (cs cs' : ColumnsState) args :
  p0_contents cs args = Replaced cs' →
  cs'.*1 = cs.*1 ∧
  ∀ k, k ≠ Part000.from args → k ≠ Part000.to args → col k cs' = col k cs.
Proof.
  intros (l1 & x & l2 & t & t' & _ & _ & _ & _ & _ & ->)%p0_replaced_shape.
  apply set_col_twice_frame.
Qed.

Lemma app_replaced_frame (cs cs' : ColumnsState) args :
  app_contents cs args = Replaced cs' →
  cs'.*1 = cs.*1 ∧
  ∀ k, k ≠ AppTsx.from args → k ≠ AppTsx.to args → col k cs' = col k cs.
Proof.
  intros (l1 & x & l2 & _ & _ & _ & H)%app_replaced_shape.
  destruct (_ || _).
  - destruct H as (t & t' & _ & _ & ->). apply set_col_twice_frame.
  - subst cs'. split; [by rewrite set_col_keys|].
    intros k Hf _. by rewrite col_set_col_ne.
Qed.

(** What a normal completion of either variant leaves on the heap. *)
Lemma p0_normal_beside (h : heap) s (cs : ColumnsState) args r new :
  snapshot_of h s = Some cs →
  Part000.moveItem s args h = (Normal r, h ++ new) →
  new_snapshot_beside h cs (Part000.from args) (Part000.to args) r new.
Proof.
  intros Hs Hrun.
  destruct (p0_normal_inv h s cs args r _ Hs Hrun)
    as (cs' & Hc & -> & Hlen & Hnew%app_inv_head & Hsnap).
  exists cs'. repeat split; try done; by apply (p0_replaced_frame _ _ _ Hc).
Qed.

Lemma app_normal_beside (h : heap) s (cs : ColumnsState) args r new :
  snapshot_of h s = Some cs →
  AppTsx.moveItem s args h = (Normal r, h ++ new) →
  (r = s ∧ app_contents cs args = Unchanged)
  ∨ new_snapshot_beside h cs (AppTsx.from args) (AppTsx.to args) r new.
Proof.
  intros Hs Hrun.
  destruct (app_normal_inv h s cs args r _ Hs Hrun)
    as [(Hc & -> & _)|(cs' & Hc & -> & Hlen & Hnew%app_inv_head & Hsnap)];
    [by left|right].
  exists cs'. repeat split; try done; by apply (app_replaced_frame _ _ _ Hc).
Qed.

(** C6, amended. [moveItem] never writes to an object that was on the heap when it
    was called: the heap afterwards is the heap before followed by fresh
    objects, so the input snapshot and its sequences read as before. A normal
    completion returns a new snapshot (one fresh array per container and one
    fresh record, so a container that is both source and target has one new
    sequence), in which every container other than [args.from] and [args.to]
    holds the same items in the same order; [src/src/App.tsx] alone may also
    return the input snapshot itself, when the item is not found. With both
    keys in the snapshot and the item in the source sequence the completion
    is normal and the snapshot returned is a new one. *)
Theorem moveItem_is_pure (h : heap) (s : loc) (cs : ColumnsState) :
  snapshot_of h s = Some cs →
  (∀ args, ∃ c new,
     Part000.moveItem s args h = (c, h ++ new) ∧
     (∀ l o, h !! l = Some o → (h ++ new) !! l = Some o) ∧
     snapshot_of (h ++ new) s = Some cs ∧
     (∀ r, c = Normal r →
        new_snapshot_beside h cs (Part000.from args) (Part000.to args) r new) ∧
     (∀ source, col (Part000.from args) cs = Some source →
        Part000.id args ∈ ids source → is_Some (col (Part000.to args) cs) →
        ∃ r, c = Normal r))
  ∧ (∀ args, ∃ c new,
       AppTsx.moveItem s args h = (c, h ++ new) ∧
       (∀ l o, h !! l = Some o → (h ++ new) !! l = Some o) ∧
       snapshot_of (h ++ new) s = Some cs ∧
       (∀ r, c = Normal r →
          (r = s ∧ app_contents cs args = Unchanged) ∨
          new_snapshot_beside h cs (AppTsx.from args) (AppTsx.to args) r new) ∧
       (∀ source, col (AppTsx.from args) cs = Some source →
          AppTsx.id args ∈ ids source → is_Some (col (AppTsx.to args) cs) →
          ∃ r, c = Normal r ∧
               new_snapshot_beside h cs (AppTsx.from args) (AppTsx.to args)
                 r new)).
Proof.
  intros Hs. split; intros args.
  - destruct (run_heap_extends_p0 h s cs args Hs) as [new Hnew].
    destruct (Part000.moveItem s args h) as [c h'] eqn:Hrun.
    cbn in Hnew. subst h'. exists c, new.
    split; [done|]. split; [intros l o; apply lookup_app_l_Some|].
    split; [by apply snapshot_of_app|]. split.
    + intros r ->. by eapply p0_normal_beside.
    + intros source Hsrc (l1 & x & l2 & -> & Hl1 & Hx)%first_occurrence Hto.
      destruct (p0_contents_found_cases cs args l1 x l2 Hsrc Hl1 Hx)
        as [[Hnone _]|(t & t' & _ & _ & Hc)].
      { apply (col_set_col_is_Some (Part000.from args) _ (l1 ++ l2)) in Hto.
        rewrite Hnone in Hto. by destruct Hto. }
      destruct (p0_returns_new h s cs _ args Hs Hc) as (r & new' & Hr & _).
      rewrite Hrun in Hr. injection Hr as -> _. by exists r.
  - destruct (run_heap_extends_app h s cs args Hs) as [new Hnew].
    destruct (AppTsx.moveItem s args h) as [c h'] eqn:Hrun.
    cbn in Hnew. subst h'. exists c, new.
    split; [done|]. split; [intros l o; apply lookup_app_l_Some|].
    split; [by apply snapshot_of_app|]. split.
    + intros r ->. by eapply app_normal_beside.
    + intros source Hsrc (l1 & x & l2 & -> & Hl1 & Hx)%first_occurrence Hto.
      assert (∃ cs', app_contents cs args = Replaced cs') as [cs' Hc].
      { pose proof (app_contents_found_cases cs args l1 x l2 Hsrc Hl1 Hx) as H.
        cbv zeta in H. destruct (_ || _); [|by eexists].
        destruct H as [[Hnone _]|(t & t' & _ & _ & Hc)]; [|by eexists].
        apply (col_set_col_is_Some (AppTsx.from args) _ (l1 ++ l2)) in Hto.
        rewrite Hnone in Hto. by destruct Hto. }
      destruct (app_returns_new h s cs _ args Hs Hc) as (r & new' & Hr & _).
      rewrite Hrun in Hr. injection Hr as -> _. exists r. split; [done|].
      destruct (app_normal_beside h s cs args r new Hs Hrun) as [[_ Hu]|?];
        [congruence|done].
Qed.

Lemma moveItem_is_pure_witness :
  (∃ c new,
     Part000.moveItem 2%nat (Part000.mkDropInfo "x" "A" "B" "z") heap_AB
     = (c, heap_AB ++ new) ∧
     snapshot_of (heap_AB ++ new) 2%nat
     = Some [("A", [item_x; item_y]); ("B", [item_z])] ∧
     ∃ r, c = Normal r)
  ∧ (∃ c new,
       AppTsx.moveItem 2%nat (AppTsx.Before "x" "A" "B" (Some "z")) heap_AB
       = (c, heap_AB ++ new) ∧
       snapshot_of (heap_AB ++ new) 2%nat
       = Some [("A", [item_x; item_y]); ("B", [item_z])] ∧
       ∃ r, c = Normal r).
Proof.
  destruct (moveItem_is_pure heap_AB 2%nat
              [("A", [item_x; item_y]); ("B", [item_z])] eq_refl) as [Hp0 Happ].
  assert ("x" ∈ ids [item_x; item_y]) as Hin by (vm_compute; left).
  split.
  - destruct (Hp0 (Part000.mkDropInfo "x" "A" "B" "z"))
      as (c & new & Hrun & _ & Hsnap & _ & Hfound).
    exists c, new. split; [done|]. split; [done|].
    apply (Hfound [item_x; item_y]); [done|done|by eexists].
  - destruct (Happ (AppTsx.Before "x" "A" "B" (Some "z")))
      as (c & new & Hrun & _ & Hsnap & _ & Hfound).
    exists c, new. split; [done|]. split; [done|].
    destruct (Hfound [item_x; item_y]) as (r & -> & _);
      [done|done|by eexists|by exists r].
Defined.

(** ** Every move is a permutation of the store *)

Lemma p0_replaced_perm (cs cs' : ColumnsState) args :
  p0_contents cs args = Replaced cs' → all_items cs' ≡ₚ all_items cs.
Proof.
  intros (l1 & x & l2 & t & t' & Hsrc & _ & _ & Ht & Hperm & ->)%p0_replaced_shape.
  rewrite (all_items_insert _ _ _ _ _ Ht Hperm).
  by rewrite <- all_items_remove.
Qed.

Lemma app_replaced_perm (cs cs' : ColumnsState) args :
  app_contents cs args = Replaced cs' →
  AppTsx.toEnd args = true ∨ is_Some (AppTsx.beforeId args) →
  all_items cs' ≡ₚ all_items cs.
Proof.
  intros (l1 & x & l2 & Hsrc & _ & _ & H)%app_replaced_shape Hanchor.
  assert (AppTsx.toEnd args || bool_decide (is_Some (AppTsx.beforeId args))
          = true) as Ht.
  { destruct Hanchor as [-> | Hb]; [done|].
    rewrite (bool_decide_eq_true_2 _ Hb). by destruct (AppTsx.toEnd args). }
  rewrite Ht in H. destruct H as (t & t' & Htgt & Hperm & ->).
  rewrite (all_items_insert _ _ _ _ _ Htgt Hperm).
  by rewrite <- all_items_remove.
Qed.

Lemma count_in_app i a b : count_in i (a ++ b) = (count_in i a + count_in i b)%nat.
Proof. unfold count_in. by rewrite filter_app, length_app. Qed.

Lemma occurrences_all_items i (cs : ColumnsState) :
  occurrences i cs = count_in i (all_items cs).
Proof.
  induction cs as [|[k a] cs IH]; [done|].
  cbn [occurrences]. rewrite IH. unfold all_items.
  rewrite fmap_cons. cbn [concat snd]. by rewrite count_in_app.
Qed.

Lemma occurrences_perm i (cs cs' : ColumnsState) :
  all_items cs' ≡ₚ all_items cs → occurrences i cs' = occurrences i cs.
Proof.
  intros Hperm. rewrite !occurrences_all_items. unfold count_in.
  by rewrite Hperm.
Qed.

Lemma initial_occurrences i :
  i ∈ ids (all_items initial_columns) → occurrences i initial_columns = 1%nat.
Proof.
  intros Hi. vm_compute in Hi.
  repeat (apply elem_of_cons in Hi as [-> | Hi]; [by vm_compute|]).
  by apply elem_of_nil in Hi.
Qed.

Lemma initial_ids_nonempty : "" ∉ ids (all_items initial_columns).
Proof. by apply absent_check. Qed.

Lemma initial_snapshot : snapshot_of initial_heap initial_state = Some initial_columns.
Proof. by vm_compute. Qed.

Lemma ids_perm (a b : list Item) : a ≡ₚ b → ids a ≡ₚ ids b.
Proof. intros H. unfold ids. by rewrite H. Qed.

(** The invariant of the orchestrator's loop. *)
Lemma reachable_p0_perm (h : heap) (s : loc) :
  reachable Part000.moveItem p0_dropped h s →
  ∃ cs, snapshot_of h s = Some cs ∧ all_items cs ≡ₚ all_items initial_columns.
Proof.
  induction 1 as [|h s cs args r h' _ (cs0 & Hs0 & Hperm) Hs _ Hrun
                  |h s cs args e h' _ (cs0 & Hs0 & Hperm) Hs _ Hrun].
  - exists initial_columns. split; [apply initial_snapshot|done].
  - rewrite Hs in Hs0. injection Hs0 as <-.
    destruct (p0_normal_inv h s cs args r h' Hs Hrun)
      as (cs' & Hc & _ & _ & _ & Hsnap).
    exists cs'. split; [done|]. by rewrite (p0_replaced_perm _ _ _ Hc).
  - exists cs0. split; [|done].
    destruct (run_heap_extends_p0 h s cs args Hs) as [new Hnew].
    rewrite Hrun in Hnew. cbn in Hnew. subst h'. by apply snapshot_of_app.
Qed.

Lemma app_dropped_anchor (cs : ColumnsState) args :
  all_items cs ≡ₚ all_items initial_columns →
  app_dropped cs args →
  AppTsx.toEnd args = true ∨ is_Some (AppTsx.beforeId args).
Proof.
  intros Hperm Hd. destruct args as [i f t [b|]|i f t]; cbn in *;
    [right|done|by left].
  destruct (String.eqb_spec b "") as [->|_]; [|by eexists].
  rewrite (ids_perm _ _ Hperm) in Hd. by apply initial_ids_nonempty in Hd.
Qed.

Lemma reachable_app_perm (h : heap) (s : loc) :
  reachable AppTsx.moveItem app_dropped h s →
  ∃ cs, snapshot_of h s = Some cs ∧ all_items cs ≡ₚ all_items initial_columns.
Proof.
  induction 1 as [|h s cs args r h' _ (cs0 & Hs0 & Hperm) Hs Hd Hrun
                  |h s cs args e h' _ (cs0 & Hs0 & Hperm) Hs _ Hrun].
  - exists initial_columns. split; [apply initial_snapshot|done].
  - rewrite Hs in Hs0. injection Hs0 as <-.
    destruct (app_normal_inv h s cs args r h' Hs Hrun)
      as [(_ & -> & new & ->)|(cs' & Hc & _ & _ & _ & Hsnap)].
    + exists cs. split; [by apply snapshot_of_app|done].
    + exists cs'. split; [done|].
      rewrite (app_replaced_perm _ _ _ Hc); [done|].
      by apply (app_dropped_anchor cs).
  - exists cs0. split; [|done].
    destruct (run_heap_extends_app h s cs args Hs) as [new Hnew].
    rewrite Hrun in Hnew. cbn in Hnew. subst h'. by apply snapshot_of_app.
Qed.

(** C4. In every snapshot the orchestrator can hold, starting from the
    initial layout and applying requests produced by drops, each item id of
    the layout occurs exactly once in all the sequences taken together (so in
    exactly one container, once), and no other id occurs. Every application
    of [moveItem] that returns keeps the number of occurrences of every id
    ([src/src/App.tsx]: for requests with [toEnd] or a non-empty
    [beforeId]). *)
Theorem uniqueness_invariant :
  (∀ h s, reachable Part000.moveItem p0_dropped h s →
     ∃ cs, snapshot_of h s = Some cs ∧
           (∀ i, i ∈ ids (all_items initial_columns) → occurrences i cs = 1%nat) ∧
           (∀ i, occurrences i cs = occurrences i initial_columns))
  ∧ (∀ h s, reachable AppTsx.moveItem app_dropped h s →
       ∃ cs, snapshot_of h s = Some cs ∧
             (∀ i, i ∈ ids (all_items initial_columns) → occurrences i cs = 1%nat) ∧
             (∀ i, occurrences i cs = occurrences i initial_columns))
  ∧ (∀ h s cs args r h',
       snapshot_of h s = Some cs →
       Part000.moveItem s args h = (Normal r, h') →
       ∃ cs', snapshot_of h' r = Some cs' ∧
              ∀ i, occurrences i cs' = occurrences i cs)
  ∧ (∀ h s cs args r h',
       snapshot_of h s = Some cs →
       AppTsx.toEnd args = true ∨ is_Some (AppTsx.beforeId args) →
       AppTsx.moveItem s args h = (Normal r, h') →
       ∃ cs', snapshot_of h' r = Some cs' ∧
              ∀ i, occurrences i cs' = occurrences i cs).
Proof.
  split; [|split; [|split]].
  - intros h s H. destruct (reachable_p0_perm h s H) as (cs & Hs & Hperm).
    exists cs. split; [done|]. split; intros i.
    + intros Hi. rewrite (occurrences_perm i _ _ Hperm).
      by apply initial_occurrences.
    + by apply occurrences_perm.
  - intros h s H. destruct (reachable_app_perm h s H) as (cs & Hs & Hperm).
    exists cs. split; [done|]. split; intros i.
    + intros Hi. rewrite (occurrences_perm i _ _ Hperm).
      by apply initial_occurrences.
    + by apply occurrences_perm.
  - intros h s cs args r h' H H0.
    destruct (p0_normal_inv h s cs args r h' H H0)
      as (cs' & Hc & _ & _ & _ & Hsnap).
    exists cs'. split; [done|]. intros i.
    apply occurrences_perm. by eapply p0_replaced_perm.
  - intros h s cs args r h' H H0 H1.
    destruct (app_normal_inv h s cs args r h' H H1)
      as [(_ & -> & new & ->)|(cs' & Hc & _ & _ & _ & Hsnap)].
    + exists cs. split; [by apply snapshot_of_app|done].
    + exists cs'. split; [done|]. intros i.
      apply occurrences_perm. by eapply app_replaced_perm.
Qed.

Lemma uniqueness_invariant_witness :
  ∃ cs,
    snapshot_of
      (snd (Part000.moveItem initial_state
              (Part000.mkDropInfo "t1" "a1" "a2" "d1") initial_heap))
      19%nat = Some cs ∧
    occurrences "t1" cs = 1%nat ∧
    col "a2" cs = Some [Item.mk "t1" "Write README"; Item.mk "d1" "Build UI"].
Proof.
  destruct uniqueness_invariant as (Hreach & _).
  destruct (Hreach
              (snd (Part000.moveItem initial_state
                      (Part000.mkDropInfo "t1" "a1" "a2" "d1") initial_heap))
              19%nat) as (cs & Hs & Hocc & _).
  - eapply (reach_move _ _ initial_heap initial_state initial_columns
              (Part000.mkDropInfo "t1" "a1" "a2" "d1")).
    + apply reach_initial.
    + apply initial_snapshot.
    + right. vm_compute. repeat constructor.
    + by vm_compute.
  - exists cs. split; [done|]. split.
    + apply Hocc. vm_compute. repeat constructor.
    + vm_compute in Hs. injection Hs as <-. by vm_compute.
Defined.

(** The requests the drop targets send are the ones [reachable] ranges
    over. *)
Lemma p0_item_drop_dropped (cs : ColumnsState) item containerId data self req :
  item ∈ all_items cs →
  req ∈ snd (Part000.DraggableItem_onDrop item containerId data self) →
  p0_dropped cs req.
Proof.
  intros Hitem. unfold Part000.DraggableItem_onDrop.
  destruct data as [d|]; cbn; [|by intros ?%elem_of_nil].
  destruct (negb _); cbn; [by intros ?%elem_of_nil|].
  intros ->%list_elem_of_singleton. right. cbn.
  apply list_elem_of_fmap. by exists item.
Qed.

Lemma p0_column_drop_dropped (cs : ColumnsState) id data self req :
  req ∈ snd (Part000.Column_onDrop id data self) → p0_dropped cs req.
Proof.
  unfold Part000.Column_onDrop.
  destruct data as [d|]; cbn; [|by intros ?%elem_of_nil].
  destruct (negb _); cbn; [by intros ?%elem_of_nil|].
  intros ->%list_elem_of_singleton. by left.
Qed.

Lemma app_item_drop_dropped (cs : ColumnsState) item containerId data self req :
  item ∈ all_items cs →
  req ∈ snd (AppTsx.DraggableItem_onDrop item containerId data self) →
  app_dropped cs req.
Proof.
  intros Hitem. unfold AppTsx.DraggableItem_onDrop.
  destruct data as [d|]; cbn; [|by intros ?%elem_of_nil].
  destruct (negb _); cbn; [by intros ?%elem_of_nil|].
  intros ->%list_elem_of_singleton. cbn.
  apply list_elem_of_fmap. by exists item.
Qed.

Lemma app_column_drop_dropped (cs : ColumnsState) id data self req :
  req ∈ snd (AppTsx.Column_onDrop id data self) → app_dropped cs req.
Proof.
  unfold AppTsx.Column_onDrop.
  destruct data as [d|]; cbn; [|by intros ?%elem_of_nil].
  destruct (negb _); cbn; [by intros ?%elem_of_nil|].
  by intros ->%list_elem_of_singleton.
Qed.

(** ** The column surface and the item targets *)

Lemma hasDropIntent_true (children : list Element) :
  Part000.hasDropIntent children = true ↔
  ∃ c, c ∈ children ∧ instanceofHTMLElement c = true ∧
       hasAttribute "data-drop-intent" c = true.
Proof.
  induction children as [|c rest IH]; cbn.
  - split; [done|]. by intros (c & ?%elem_of_nil & _).
  - destruct (instanceofHTMLElement c && hasAttribute "data-drop-intent" c)
      eqn:E.
    + apply andb_true_iff in E as [? ?]. split; [|done].
      intros _. exists c. split; [left|done].
    + rewrite IH. split.
      * intros (c' & Hin & ? & ?). exists c'. split; [by right|done].
      * intros (c' & [->|Hin]%elem_of_cons & H1 & H2).
        -- rewrite H1, H2 in E. discriminate.
        -- by exists c'.
Qed.

Lemma hasAttribute_setAttribute name v (e : Element) :
  hasAttribute name (setAttribute name v e) = true.
Proof.
  unfold setAttribute. destruct (hasAttribute name e) eqn:E;
    unfold hasAttribute in *; cbn.
  - induction (attributes e) as [|a l IH]; [done|]. cbn in *.
    destruct (String.eqb (fst a) name) eqn:Ea; cbn.
    + by rewrite String.eqb_refl.
    + rewrite Ea. cbn. by apply IH.
  - rewrite existsb_app. cbn. rewrite String.eqb_refl. by rewrite orb_true_r.
Qed.

(** An item target that is entered by an item drag marks its element. *)
Lemma onDragEnter_marks (data : option DragData) (self : Element) :
  is_item_drag data = true →
  hasAttribute "data-drop-intent" (Part000.DraggableItem_onDragEnter data self)
  = true
  ∧ instanceofHTMLElement (Part000.DraggableItem_onDragEnter data self)
    = instanceofHTMLElement self.
Proof.
  intros Hd. unfold Part000.DraggableItem_onDragEnter. rewrite Hd. cbn [negb].
  split; [apply hasAttribute_setAttribute|done].
Qed.

(** The conflict resolver where it works. In the variant with
    [hasDropIntent], whenever some child of the list element is an
    [HTMLElement] that carries the [data-drop-intent] marker, the column's
    [canDrop] returns [false], whatever the drag; so an item drag dropped
    over a marked item element sends exactly one request, the one of the
    item target. The marker is set by [onDragEnter] alone: for an element
    that was never entered see [drop_on_unentered_item_sends_two]. *)
Theorem column_defers_to_item_target (data : option DragData)
    (children : list Element) (c : Element) :
  c ∈ children →
  instanceofHTMLElement c = true →
  hasAttribute "data-drop-intent" c = true →
  Part000.Column_canDrop data children = false
  ∧ (∀ item containerId column d,
       data = Some d → DragData.type d = "item" →
       Part000.drop_over_item item containerId data c column children
       = [Part000.mkDropInfo (DragData.itemId d) (DragData.fromContainerId d)
            containerId (Item.id item)]).
Proof.
  intros Hin Hhtml Hmark.
  assert (Part000.hasDropIntent children = true) as Hintent
    by (apply hasDropIntent_true; by exists c).
  assert (Part000.Column_canDrop data children = false) as Hcan.
  { unfold Part000.Column_canDrop. rewrite Hintent. apply andb_false_r. }
  split; [done|].
  intros item containerId column d -> Htype.
  unfold Part000.drop_over_item. rewrite Hcan.
  unfold Part000.DraggableItem_canDrop, Part000.DraggableItem_onDrop. cbn.
  by rewrite Htype.
Qed.

Lemma column_defers_to_item_target_witness :
  let data := Some (DragData.mk "item" "x" "A") in
  let hovered :=
    Part000.DraggableItem_onDragEnter data (mkElement true [("role", "listitem")]) in
  let children := [mkElement true [("role", "listitem")]; hovered] in
  Part000.Column_canDrop data children = false
  ∧ Part000.drop_over_item item_y "A" data hovered
      (mkElement true [("role", "list")]) children
    = [Part000.mkDropInfo "x" "A" "A" "y"].
Proof.
  cbv zeta.
  destruct (column_defers_to_item_target
              (Some (DragData.mk "item" "x" "A"))
              [mkElement true [("role", "listitem")];
               Part000.DraggableItem_onDragEnter
                 (Some (DragData.mk "item" "x" "A"))
                 (mkElement true [("role", "listitem")])]
              (Part000.DraggableItem_onDragEnter
                 (Some (DragData.mk "item" "x" "A"))
                 (mkElement true [("role", "listitem")])))
    as [H1 H2].
  - right. left.
  - reflexivity.
  - reflexivity.
  - split; [exact H1|].
    exact (H2 item_y "A" (mkElement true [("role", "list")])
             (DragData.mk "item" "x" "A") eq_refl eq_refl).
Defined.

(** * Further properties of the code *)

(** ** Where the item is put *)

Lemma col_set_col (k k' : string) a (cs : ColumnsState) :
  col k' (set_col k a cs)
  = if String.eqb k k' then (λ _, a) <$> col k' cs else col k' cs.
Proof.
  destruct (String.eqb_spec k k') as [<-|Hne].
  - destruct (col k cs) as [a0|] eqn:E.
    + cbn. apply col_set_col_eq. by eexists.
    + cbn. by apply col_set_col_None.
  - by apply col_set_col_ne.
Qed.

Lemma set_col_same k a (cs : ColumnsState) :
  col k cs = Some a → set_col k a cs = cs.
Proof.
  intros (pre & post & -> & Hset)%col_split. by rewrite Hset.
Qed.

(** The item goes right before the anchor when the anchor is in the target
    sequence: always in [App.tsx], and in the second variant whenever the
    move is not a same-container move. *)
Lemma app_insert_before (cs : ColumnsState) args b l1 x l2 t1 y t2 :
  col (AppTsx.from args) cs = Some (l1 ++ x :: l2) →
  AppTsx.id args ∉ ids l1 → Item.id x = AppTsx.id args →
  AppTsx.toEnd args = false → AppTsx.beforeId args = Some b →
  col (AppTsx.to args) (set_col (AppTsx.from args) (l1 ++ l2) cs)
  = Some (t1 ++ y :: t2) →
  b ∉ ids t1 → Item.id y = b →
  app_contents cs args
  = Replaced (set_col (AppTsx.to args) (t1 ++ x :: y :: t2)
                (set_col (AppTsx.from args) (l1 ++ l2) cs)).
Proof.
  intros Hsrc Hl1 Hx HtoEnd Hbefore Htgt Hb Hy.
  rewrite (app_contents_found _ _ _ _ _ Hsrc Hl1 Hx). cbv zeta.
  rewrite HtoEnd, Hbefore, Htgt, (anchor_found _ _ _ _ Hb Hy), of_nat_eqb_m1.
  by rewrite splice_list_insert_mid.
Qed.

Lemma p0_insert_before (cs : ColumnsState) args l1 x l2 t1 y t2 :
  col (Part000.from args) cs = Some (l1 ++ x :: l2) →
  Part000.id args ∉ ids l1 → Item.id x = Part000.id args →
  Part000.beforeId args ≠ "last" →
  Part000.from args ≠ Part000.to args →
  col (Part000.to args) (set_col (Part000.from args) (l1 ++ l2) cs)
  = Some (t1 ++ y :: t2) →
  Part000.beforeId args ∉ ids t1 → Item.id y = Part000.beforeId args →
  p0_contents cs args
  = Replaced (set_col (Part000.to args) (t1 ++ x :: y :: t2)
                (set_col (Part000.from args) (l1 ++ l2) cs)).
Proof.
  intros Hsrc Hl1 Hx Hlast%String.eqb_neq Hne%String.eqb_neq Htgt Hb Hy.
  rewrite (p0_contents_found _ _ _ _ _ Hsrc Hl1 Hx). cbv zeta.
  rewrite Hlast, Htgt, (anchor_found _ _ _ _ Hb Hy), of_nat_eqb_m1, Hne.
  cbn [andb]. by rewrite splice_list_insert_mid.
Qed.

(** X1. A move into another container with an anchor that is in the target
    sequence returns a new snapshot in which the item has left the source
    sequence and stands right before the anchor in the target sequence; the
    two variants agree. *)
Theorem cross_container_insert_before (h : heap) (s : loc) (cs : ColumnsState)
    (f t i b : string) (l1 l2 t1 t2 : list Item) (x y : Item) :
  snapshot_of h s = Some cs →
  f ≠ t →
  col f cs = Some (l1 ++ x :: l2) →
  i ∉ ids l1 →
  Item.id x = i →
  col t cs = Some (t1 ++ y :: t2) →
  b ∉ ids t1 →
  Item.id y = b →
  (b ≠ "last" →
   returns_new (Part000.moveItem s (Part000.mkDropInfo i f t b)) h
     (set_col t (t1 ++ x :: y :: t2) (set_col f (l1 ++ l2) cs)))
  ∧ (b ≠ "" →
     returns_new (AppTsx.moveItem s (AppTsx.Before i f t (Some b))) h
       (set_col t (t1 ++ x :: y :: t2) (set_col f (l1 ++ l2) cs))).
Proof.
  intros Hs Hne Hsrc Hl1 Hx Htgt Hb Hy.
  assert (col t (set_col f (l1 ++ l2) cs) = Some (t1 ++ y :: t2)) as Htgt'
    by by rewrite col_set_col_ne.
  split; intros Hb'.
  - eapply p0_returns_new; [exact Hs|].
    by apply (p0_insert_before cs (Part000.mkDropInfo i f t b)).
  - eapply app_returns_new; [exact Hs|].
    apply (app_insert_before cs (AppTsx.Before i f t (Some b)) b); try done.
    by apply app_beforeId_Some.
Qed.

Lemma cross_container_insert_before_witness :
  returns_new (Part000.moveItem 2%nat (Part000.mkDropInfo "y" "A" "B" "z"))
    heap_AB [("A", [item_x]); ("B", [item_y; item_z])]
  ∧ returns_new (AppTsx.moveItem 2%nat (AppTsx.Before "y" "A" "B" (Some "z")))
      heap_AB [("A", [item_x]); ("B", [item_y; item_z])].
Proof.
  destruct (cross_container_insert_before heap_AB 2%nat
              [("A", [item_x; item_y]); ("B", [item_z])]
              "A" "B" "y" "z" [item_x] [] [] [] item_y item_z)
    as [H1 H2]; try reflexivity; try discriminate; try by apply absent_check.
  split; [apply H1|apply H2]; discriminate.
Defined.

(** X2. A request for the end of a container ([toEnd: true], or
    [beforeId: "last"]) whose item is in the source sequence returns a new
    snapshot in which the item is the last of the target sequence, the
    target sequence being read after the item has left the source. *)
Theorem move_to_end (h : heap) (s : loc) (cs : ColumnsState)
    (f t i : string) (l1 l2 tgt : list Item) (x : Item) :
  snapshot_of h s = Some cs →
  col f cs = Some (l1 ++ x :: l2) →
  i ∉ ids l1 →
  Item.id x = i →
  col t (set_col f (l1 ++ l2) cs) = Some tgt →
  returns_new (Part000.moveItem s (Part000.mkDropInfo i f t "last")) h
    (set_col t (tgt ++ [x]) (set_col f (l1 ++ l2) cs))
  ∧ returns_new (AppTsx.moveItem s (AppTsx.ToEnd i f t)) h
      (set_col t (tgt ++ [x]) (set_col f (l1 ++ l2) cs)).
Proof.
  intros Hs Hsrc Hl1 Hx Htgt. split.
  - eapply p0_returns_new; [exact Hs|].
    rewrite (p0_contents_found _ _ l1 x l2) by done. cbv zeta.
    cbn [Part000.beforeId Part000.from Part000.to]. rewrite String.eqb_refl.
    unfold insert_at_end. by rewrite Htgt.
  - eapply app_returns_new; [exact Hs|].
    rewrite (app_contents_found _ _ l1 x l2) by done. cbv zeta.
    cbn [AppTsx.toEnd AppTsx.from AppTsx.to].
    unfold insert_at_end. by rewrite Htgt.
Qed.

Lemma move_to_end_witness :
  returns_new (Part000.moveItem 1%nat (Part000.mkDropInfo "x" "A" "A" "last"))
    heap_A [("A", [item_y; item_z; item_x])]
  ∧ returns_new (AppTsx.moveItem 1%nat (AppTsx.ToEnd "x" "A" "A"))
      heap_A [("A", [item_y; item_z; item_x])].
Proof.
  exact (move_to_end heap_A 1%nat [("A", [item_x; item_y; item_z])]
           "A" "A" "x" [] [item_y; item_z] [item_y; item_z] item_x
           eq_refl eq_refl (absent_check "x" [] eq_refl) eq_refl eq_refl).
Defined.

(** ** The place of the anchor *)

(** The anchor's index in the sequence as it was, from its position once the
    item has been taken out. *)
Lemma anchor_index_before b l1 x l2 t1 y t2 :
  l1 ++ l2 = t1 ++ y :: t2 → b ∉ ids t1 → Item.id y = b → Item.id x ≠ b →
  findIndex_list (has_id b) (l1 ++ x :: l2)
  = if (Z.of_nat (length l1) <=? Z.of_nat (length t1))%Z
    then (Z.of_nat (length t1) + 1)%Z else Z.of_nat (length t1).
Proof.
  intros Heq Ht1 Hy Hx%has_id_false.
  destruct (app_eq_inv _ _ _ _ Heq) as [(k & -> & Hk)|(k & -> & ->)].
  - destruct k as [|y' k]; cbn in Hk.
    + subst l2. rewrite app_nil_r, Z.leb_refl.
      replace (t1 ++ x :: y :: t2) with ((t1 ++ [x]) ++ y :: t2)
        by (by rewrite <- app_assoc).
      rewrite (findIndex_list_found _ (t1 ++ [x]) y t2).
      * rewrite length_app. cbn. lia.
      * apply Forall_app. split; [by apply absent_not_elem|by constructor].
      * by apply has_id_true.
    + injection Hk as <- ->.
      rewrite <- (app_assoc t1 (y :: k) (x :: l2)). cbn [app].
      rewrite (anchor_found b t1 y) by done.
      rewrite length_app. cbn [length].
      by destruct (Z.leb_spec (Z.of_nat (length t1 + S (length k)))
                     (Z.of_nat (length t1))); [lia|].
  - apply not_elem_of_ids_app_inv in Ht1 as [Hl1 Hk].
    replace (l1 ++ x :: k ++ y :: t2) with ((l1 ++ x :: k) ++ y :: t2)
      by (by rewrite <- app_assoc).
    rewrite (findIndex_list_found _ (l1 ++ x :: k) y t2).
    + rewrite !length_app. cbn [length].
      destruct (Z.leb_spec (Z.of_nat (length l1))
                  (Z.of_nat (length l1 + length k))); lia.
    + apply Forall_app. split; [by apply absent_not_elem|].
      constructor; [done|by apply absent_not_elem].
    + by apply has_id_true.
Qed.

(** X3. In the variant with the index correction, a same-container move
    onto another item of the container puts the moved item at the index the
    anchor had before the move, whether the item comes from before or from
    behind the anchor; the sequence keeps its length. *)
Theorem same_container_takes_anchor_index (h : heap) (s : loc)
    (cs : ColumnsState) (k i b : string) (l1 l2 : list Item) (x : Item) :
  snapshot_of h s = Some cs →
  col k cs = Some (l1 ++ x :: l2) →
  i ∉ ids l1 →
  Item.id x = i →
  b ≠ "last" →
  b ≠ i →
  b ∈ ids (l1 ++ x :: l2) →
  ∃ res,
    returns_new (Part000.moveItem s (Part000.mkDropInfo i k k b)) h
      (set_col k res cs)
    ∧ res !! Z.to_nat (findIndex_list (has_id b) (l1 ++ x :: l2)) = Some x
    ∧ length res = length (l1 ++ x :: l2).
Proof.
  intros Hs Hsrc Hl1 Hx Hlast Hbi Hb.
  assert (b ∈ ids (l1 ++ l2)) as Hb'.
  { unfold ids in *. rewrite fmap_app, elem_of_app in *.
    rewrite fmap_cons, elem_of_cons in Hb.
    destruct Hb as [?|[?|?]]; [by left|congruence|by right]. }
  destruct (first_occurrence b _ Hb') as (t1 & y & t2 & Heq & Ht1 & Hy).
  assert (Item.id x ≠ b) as Hxb by congruence.
  rewrite (anchor_index_before b l1 x l2 t1 y t2 Heq Ht1 Hy Hxb).
  eexists. split; [eapply p0_returns_new; [exact Hs|]|].
  - by apply (p0_same_container_anchor cs k i b l1 x l2 t1 y t2).
  - rewrite Heq. destruct (_ <=? _)%Z.
    + rewrite splice_list_insert_after. cbn [snd]. split.
      * replace (Z.to_nat (Z.of_nat (length t1) + 1)) with (length t1 + 1)%nat
          by lia.
        rewrite lookup_app_r by lia.
        by replace (length t1 + 1 - length t1)%nat with 1%nat by lia.
      * rewrite !length_app in *. cbn [length] in *.
        apply (f_equal length) in Heq. rewrite !length_app in Heq.
        cbn [length] in Heq. lia.
    + rewrite splice_list_insert_mid. cbn [snd]. split.
      * rewrite Nat2Z.id. rewrite lookup_app_r by lia.
        by replace (length t1 - length t1)%nat with 0%nat by lia.
      * apply (f_equal length) in Heq. rewrite !length_app in *.
        cbn [length] in *. lia.
Qed.

Lemma same_container_takes_anchor_index_witness :
  ∃ res,
    returns_new (Part000.moveItem 1%nat (Part000.mkDropInfo "x" "A" "A" "z"))
      heap_A [("A", res)]
    ∧ res !! 2%nat = Some item_x ∧ length res = 3%nat.
Proof.
  destruct (same_container_takes_anchor_index heap_A 1%nat
              [("A", [item_x; item_y; item_z])] "A" "x" "z"
              [] [item_y; item_z] item_x)
    as (res & H1 & H2 & H3); try reflexivity; try discriminate.
  - by apply absent_check.
  - vm_compute. repeat constructor.
  - by exists res.
Defined.



(** X5. Sending the last item of a container to the end of that same
    container returns a new snapshot with the contents of the input, in both
    variants. *)
Theorem last_item_to_end_keeps_order (h : heap) (s : loc) (cs : ColumnsState)
    (k : string) (l1 : list Item) (x : Item) :
  snapshot_of h s = Some cs →
  col k cs = Some (l1 ++ [x]) →
  Item.id x ∉ ids l1 →
  returns_new (Part000.moveItem s (Part000.mkDropInfo (Item.id x) k k "last"))
    h cs
  ∧ returns_new (AppTsx.moveItem s (AppTsx.ToEnd (Item.id x) k k)) h cs.
Proof.
  intros Hs Hsrc Hl1.
  assert (col k (set_col k (l1 ++ []) cs) = Some (l1 ++ [])) as Htgt
    by (apply col_set_col_eq; by eexists).
  assert (set_col k ((l1 ++ []) ++ [x]) (set_col k (l1 ++ []) cs) = cs) as Heq.
  { rewrite set_col_set_col, app_nil_r. by apply set_col_same. }
  split.
  - eapply p0_returns_new; [exact Hs|].
    rewrite (p0_contents_found _ _ l1 x []) by done. cbv zeta.
    cbn [Part000.beforeId Part000.from Part000.to]. rewrite String.eqb_refl.
    unfold insert_at_end. by rewrite Htgt, Heq.
  - eapply app_returns_new; [exact Hs|].
    rewrite (app_contents_found _ _ l1 x []) by done. cbv zeta.
    cbn [AppTsx.toEnd AppTsx.from AppTsx.to].
    unfold insert_at_end. by rewrite Htgt, Heq.
Qed.

Lemma last_item_to_end_keeps_order_witness :
  returns_new (Part000.moveItem 1%nat (Part000.mkDropInfo "z" "A" "A" "last"))
    heap_A [("A", [item_x; item_y; item_z])]
  ∧ returns_new (AppTsx.moveItem 1%nat (AppTsx.ToEnd "z" "A" "A"))
      heap_A [("A", [item_x; item_y; item_z])].
Proof.
  apply (last_item_to_end_keeps_order heap_A 1%nat
           [("A", [item_x; item_y; item_z])] "A" [item_x; item_y] item_z);
    try reflexivity. by apply absent_check.
Defined.

(** ** What a move does to each sequence *)

Lemma inserted_end x t : inserted x t (t ++ [x]).
Proof. exists (length t). by rewrite firstn_all, drop_all. Qed.

Lemma inserted_splice z x t : inserted x t (snd (splice_list z 0 [x] t)).
Proof.
  unfold splice_list. cbn [snd]. set (n := Z.to_nat _). exists n.
  replace (Z.to_nat (Z.min (Z.max 0 0) _)) with 0%nat by lia.
  by rewrite Nat.add_0_r.
Qed.

Lemma inserted_length x t t' : inserted x t t' → length t' = S (length t).
Proof.
  intros [n ->]. rewrite length_app. cbn [length].
  rewrite <- (take_drop n t) at 3. rewrite length_app. lia.
Qed.

Lemma others_app i a b : others i (a ++ b) = others i a ++ others i b.
Proof. unfold others. by rewrite filter_app. Qed.

Lemma others_remove i l1 x l2 :
  Item.id x = i → others i (l1 ++ x :: l2) = others i (l1 ++ l2).
Proof.
  intros Hx. rewrite !others_app. f_equal. unfold others.
  by rewrite filter_cons_False by (intros H; by apply H).
Qed.

Lemma others_inserted i x t t' :
  Item.id x = i → inserted x t t' → others i t' = others i t.
Proof.
  intros Hx [n ->]. rewrite (others_remove _ _ _ _ Hx).
  by rewrite take_drop.
Qed.

Lemma p0_replaced_inserted (cs cs' : ColumnsState) args :
  p0_contents cs args = Replaced cs' →
  ∃ l1 x l2 t t',
    col (Part000.from args) cs = Some (l1 ++ x :: l2) ∧
    Item.id x = Part000.id args ∧
    col (Part000.to args) (set_col (Part000.from args) (l1 ++ l2) cs) = Some t ∧
    inserted x t t' ∧
    cs' = set_col (Part000.to args) t'
            (set_col (Part000.from args) (l1 ++ l2) cs).
Proof.
  intros Hc.
  destruct (p0_replaced_shape _ _ _ Hc)
    as (l1 & x & l2 & t & _ & Hsrc & Hl1 & Hx & Ht & _ & _).
  exists l1, x, l2, t.
  rewrite (p0_contents_found _ _ _ _ _ Hsrc Hl1 Hx) in Hc. cbv zeta in Hc.
  unfold insert_at_end in Hc. rewrite Ht in Hc.
  destruct (String.eqb _ "last"); injection Hc as <-; eexists;
    (do 3 (split; [done|])); (split; [|done]).
  - apply inserted_end.
  - apply inserted_splice.
Qed.

Lemma app_replaced_inserted (cs cs' : ColumnsState) args :
  app_contents cs args = Replaced cs' →
  ∃ l1 x l2,
    col (AppTsx.from args) cs = Some (l1 ++ x :: l2) ∧
    Item.id x = AppTsx.id args ∧
    if AppTsx.toEnd args || bool_decide (is_Some (AppTsx.beforeId args)) then
      ∃ t t',
        col (AppTsx.to args) (set_col (AppTsx.from args) (l1 ++ l2) cs) = Some t ∧
        inserted x t t' ∧
        cs' = set_col (AppTsx.to args) t'
                (set_col (AppTsx.from args) (l1 ++ l2) cs)
    else cs' = set_col (AppTsx.from args) (l1 ++ l2) cs.
Proof.
  intros Hc.
  destruct (app_replaced_shape _ _ _ Hc) as (l1 & x & l2 & Hsrc & Hl1 & Hx & H).
  exists l1, x, l2. do 2 (split; [done|]).
  rewrite (app_contents_found _ _ _ _ _ Hsrc Hl1 Hx) in Hc. cbv zeta in Hc.
  unfold insert_at_end in Hc.
  destruct (AppTsx.toEnd args); cbn [orb] in *.
  - destruct H as (t & _ & Ht & _ & _). rewrite Ht in Hc. injection Hc as <-.
    exists t. eexists. split; [done|]. split; [apply inserted_end|done].
  - destruct (AppTsx.beforeId args) as [b|]; [|done].
    rewrite bool_decide_eq_true_2 in * by by eexists.
    destruct H as (t & _ & Ht & _ & _). rewrite Ht in Hc. injection Hc as <-.
    exists t. eexists. split; [done|]. split; [apply inserted_splice|done].
Qed.

(** Taking an item out of container [f] and putting it into the sequence
    [t] of container [k], seen from any container. *)
Lemma move_keeps_others (cs : ColumnsState) f k i l1 x l2 t t' :
  col f cs = Some (l1 ++ x :: l2) → Item.id x = i →
  col k (set_col f (l1 ++ l2) cs) = Some t → inserted x t t' →
  ∀ c, others i <$> col c (set_col k t' (set_col f (l1 ++ l2) cs))
       = others i <$> col c cs.
Proof.
  intros Hsrc Hx Ht Hins c. rewrite col_set_col.
  destruct (String.eqb_spec k c) as [<-|Hkc].
  - rewrite Ht. cbn [fmap option_fmap option_map]. rewrite (others_inserted _ _ _ _ Hx Hins).
    rewrite col_set_col in Ht. destruct (String.eqb_spec f k) as [<-|Hfk].
    + rewrite Hsrc in *. cbn [fmap option_fmap option_map] in *. injection Ht as <-.
      by rewrite (others_remove _ _ _ _ Hx).
    + by rewrite Ht.
  - rewrite col_set_col. destruct (String.eqb_spec f c) as [<-|Hfc]; [|done].
    rewrite Hsrc. cbn [fmap option_fmap option_map]. by rewrite (others_remove _ _ _ _ Hx).
Qed.

Lemma remove_keeps_others (cs : ColumnsState) f i l1 x l2 :
  col f cs = Some (l1 ++ x :: l2) → Item.id x = i →
  ∀ c, others i <$> col c (set_col f (l1 ++ l2) cs) = others i <$> col c cs.
Proof.
  intros Hsrc Hx c. rewrite col_set_col.
  destruct (String.eqb_spec f c) as [<-|Hfc]; [|done].
  rewrite Hsrc. cbn [fmap option_fmap option_map]. by rewrite (others_remove _ _ _ _ Hx).
Qed.

(** X6. A move never reorders the other items: in the snapshot [moveItem]
    returns, every container holds the items whose id is not [args.id] in the
    order they had in the input, whatever the request and in both variants
    (also when [App.tsx] puts the item nowhere). *)
Theorem move_keeps_order_of_others (h : heap) (s : loc) (cs : ColumnsState) :
  snapshot_of h s = Some cs →
  (∀ args r h',
     Part000.moveItem s args h = (Normal r, h') →
     ∃ cs', snapshot_of h' r = Some cs' ∧
            ∀ c, others (Part000.id args) <$> col c cs'
                 = others (Part000.id args) <$> col c cs)
  ∧ (∀ args r h',
       AppTsx.moveItem s args h = (Normal r, h') →
       ∃ cs', snapshot_of h' r = Some cs' ∧
              ∀ c, others (AppTsx.id args) <$> col c cs'
                   = others (AppTsx.id args) <$> col c cs).
Proof.
  intros Hs. split; intros args r h' Hrun.
  - destruct (p0_normal_inv h s cs args r h' Hs Hrun)
      as (cs' & Hc & _ & _ & _ & Hsnap).
    exists cs'. split; [done|].
    destruct (p0_replaced_inserted _ _ _ Hc)
      as (l1 & x & l2 & t & t' & Hsrc & Hx & Ht & Hins & ->).
    by apply (move_keeps_others cs _ _ _ l1 x l2 t t').
  - destruct (app_normal_inv h s cs args r h' Hs Hrun)
      as [(_ & -> & new & ->)|(cs' & Hc & _ & _ & _ & Hsnap)].
    { exists cs. split; [by apply snapshot_of_app|done]. }
    exists cs'. split; [done|].
    destruct (app_replaced_inserted _ _ _ Hc) as (l1 & x & l2 & Hsrc & Hx & H).
    destruct (_ || _).
    + destruct H as (t & t' & Ht & Hins & ->).
      by apply (move_keeps_others cs _ _ _ l1 x l2 t t').
    + subst cs'. by apply (remove_keeps_others cs _ _ l1 x l2).
Qed.

Lemma move_keeps_order_of_others_witness :
  ∃ cs', snapshot_of
           (snd (Part000.moveItem 1%nat (Part000.mkDropInfo "x" "A" "A" "z")
                   heap_A)) 3%nat = Some cs' ∧
         others "x" <$> col "A" cs' = Some [item_y; item_z].
Proof.
  destruct (move_keeps_order_of_others heap_A 1%nat
              [("A", [item_x; item_y; item_z])] eq_refl) as [Hp0 _].
  destruct (Hp0 (Part000.mkDropInfo "x" "A" "A" "z") 3%nat
              (snd (Part000.moveItem 1%nat (Part000.mkDropInfo "x" "A" "A" "z")
                      heap_A)) eq_refl) as (cs' & Hsnap & Hothers).
  exists cs'. split; [done|]. exact (Hothers "A").
Defined.

(** X7. Lengths: when [moveItem] returns a new snapshot after a move into
    another container, the source sequence is one shorter and the target
    sequence one longer than in the input; after a same-container move the
    sequence has the length it had. ([App.tsx]: for requests with [toEnd] or
    a non-empty [beforeId].) *)
Theorem move_lengths (h : heap) (s : loc) (cs : ColumnsState) :
  snapshot_of h s = Some cs →
  (∀ args r h',
     Part000.moveItem s args h = (Normal r, h') →
     ∃ cs' src tgt src' tgt',
       snapshot_of h' r = Some cs' ∧
       col (Part000.from args) cs = Some src ∧
       col (Part000.to args) cs = Some tgt ∧
       col (Part000.from args) cs' = Some src' ∧
       col (Part000.to args) cs' = Some tgt' ∧
       if String.eqb (Part000.from args) (Part000.to args)
       then length tgt' = length tgt
       else S (length src') = length src ∧ length tgt' = S (length tgt))
  ∧ (∀ args r h',
       AppTsx.toEnd args = true ∨ is_Some (AppTsx.beforeId args) →
       AppTsx.moveItem s args h = (Normal r, h') →
       r ≠ s →
       ∃ cs' src tgt src' tgt',
         snapshot_of h' r = Some cs' ∧
         col (AppTsx.from args) cs = Some src ∧
         col (AppTsx.to args) cs = Some tgt ∧
         col (AppTsx.from args) cs' = Some src' ∧
         col (AppTsx.to args) cs' = Some tgt' ∧
         if String.eqb (AppTsx.from args) (AppTsx.to args)
         then length tgt' = length tgt
         else S (length src') = length src ∧ length tgt' = S (length tgt)).
Proof.
  assert (∀ f t l1 x l2 tg tg',
            col f cs = Some (l1 ++ x :: l2) →
            col t (set_col f (l1 ++ l2) cs) = Some tg → inserted x tg tg' →
            ∃ src tgt src' tgt',
              col f cs = Some src ∧ col t cs = Some tgt ∧
              col f (set_col t tg' (set_col f (l1 ++ l2) cs)) = Some src' ∧
              col t (set_col t tg' (set_col f (l1 ++ l2) cs)) = Some tgt' ∧
              if String.eqb f t then length tgt' = length tgt
              else S (length src') = length src ∧ length tgt' = S (length tgt))
    as Hgen.
  { intros f t l1 x l2 tg tg' Hsrc Ht Hins.
    pose proof (inserted_length _ _ _ Hins) as Hlen.
    assert (col t (set_col t tg' (set_col f (l1 ++ l2) cs)) = Some tg') as Ht'
      by (apply col_set_col_eq; by eexists).
    rewrite col_set_col in Ht. destruct (String.eqb_spec f t) as [<-|Hft].
    - rewrite Hsrc in Ht. cbn in Ht. injection Ht as <-.
      exists (l1 ++ x :: l2), (l1 ++ x :: l2), tg', tg'.
      repeat split; try done. rewrite Hlen, !length_app. cbn. lia.
    - exists (l1 ++ x :: l2), tg, (l1 ++ l2), tg'.
      repeat split; try done.
      + rewrite col_set_col_ne by done. apply col_set_col_eq. by eexists.
      + rewrite !length_app. cbn. lia. }
  intros Hs. split.
  - intros args r h' Hrun.
    destruct (p0_normal_inv h s cs args r h' Hs Hrun)
      as (cs' & Hc & _ & _ & _ & Hsnap).
    destruct (p0_replaced_inserted _ _ _ Hc)
      as (l1 & x & l2 & t & t' & Hsrc & Hx & Ht & Hins & ->).
    destruct (Hgen _ _ _ _ _ _ _ Hsrc Ht Hins) as (a & b & c & d & H).
    by eexists _, a, b, c, d.
  - intros args r h' Hanchor Hrun Hrs.
    destruct (app_normal_inv h s cs args r h' Hs Hrun)
      as [(_ & -> & _)|(cs' & Hc & _ & _ & _ & Hsnap)]; [done|].
    destruct (app_replaced_inserted _ _ _ Hc) as (l1 & x & l2 & Hsrc & Hx & H).
    assert (AppTsx.toEnd args || bool_decide (is_Some (AppTsx.beforeId args))
            = true) as Ht.
    { destruct Hanchor as [-> | Hb]; [done|].
      rewrite (bool_decide_eq_true_2 _ Hb). by destruct (AppTsx.toEnd args). }
    rewrite Ht in H. destruct H as (t & t' & Htg & Hins & ->).
    destruct (Hgen _ _ _ _ _ _ _ Hsrc Htg Hins) as (a & b & c & d & H).
    by eexists _, a, b, c, d.
Qed.

Lemma move_lengths_witness :
  ∃ cs' src' tgt',
    snapshot_of
      (snd (Part000.moveItem 2%nat (Part000.mkDropInfo "x" "A" "B" "z") heap_AB))
      5%nat = Some cs' ∧
    col "A" cs' = Some src' ∧ col "B" cs' = Some tgt' ∧
    length src' = 1%nat ∧ length tgt' = 2%nat.
Proof.
  destruct (move_lengths heap_AB 2%nat
              [("A", [item_x; item_y]); ("B", [item_z])] eq_refl) as [Hp0 _].
  destruct (Hp0 (Part000.mkDropInfo "x" "A" "B" "z") 5%nat
              (snd (Part000.moveItem 2%nat (Part000.mkDropInfo "x" "A" "B" "z")
                      heap_AB)) eq_refl)
    as (cs' & src & tgt & src' & tgt' & Hsnap & Hsrc & Htgt & Hsrc' & Htgt' & H).
  exists cs', src', tgt'. do 3 (split; [done|]).
  cbn in Hsrc, Htgt, H. injection Hsrc as <-. injection Htgt as <-.
  cbn in H. lia.
Defined.

(** ** One request after another *)

(** X8. A stale payload: once an item (the only one with its id in the
    source sequence) has been moved into another container, any further
    request that names the old source container and that id finds nothing
    there; [src/src/App.tsx] then returns the snapshot it was given, the
    variant with [invariant] throws. *)
Theorem stale_payload (h : heap) (s : loc) (cs : ColumnsState)
    (f t i : string) (l1 l2 : list Item) (x : Item) :
  snapshot_of h s = Some cs →
  f ≠ t →
  col f cs = Some (l1 ++ x :: l2) →
  Item.id x = i →
  i ∉ ids l1 →
  i ∉ ids l2 →
  is_Some (col t cs) →
  (∀ args1, AppTsx.from args1 = f → AppTsx.to args1 = t → AppTsx.id args1 = i →
     ∃ r h', AppTsx.moveItem s args1 h = (Normal r, h') ∧
             ∀ args2, AppTsx.from args2 = f → AppTsx.id args2 = i →
                      returns_same (AppTsx.moveItem r args2) h' r)
  ∧ (∀ args1, Part000.from args1 = f → Part000.to args1 = t →
              Part000.id args1 = i →
       ∃ r h', Part000.moveItem s args1 h = (Normal r, h') ∧
               ∀ args2, Part000.from args2 = f → Part000.id args2 = i →
                        throws (Part000.moveItem r args2) h'
                          (InvariantFailed
                             "Item to move must exist in the source container")).
Proof.
  intros Hs Hft Hsrc Hx Hl1 Hl2 Hto.
  assert (i ∉ ids (l1 ++ l2)) as Hgone by by apply not_elem_of_ids_app.
  apply (col_set_col_is_Some f t (l1 ++ l2)) in Hto as [tg Htg].
  assert (∀ t', col f (set_col t t' (set_col f (l1 ++ l2) cs))
                = Some (l1 ++ l2)) as Hsrc'.
  { intros t'. rewrite col_set_col_ne by done.
    apply col_set_col_eq. by eexists. }
  split; intros args1 <- <- <-.
  - assert (∃ cs', app_contents cs args1 = Replaced cs' ∧
                   col (AppTsx.from args1) cs' = Some (l1 ++ l2))
      as (cs' & Hc & Hsrc1).
    { pose proof (app_contents_found_cases cs args1 l1 x l2 Hsrc Hl1 Hx) as H.
      cbv zeta in H. destruct (_ || _).
      - destruct H as [[Hnone _]|(t0 & t' & _ & _ & Hc)]; [congruence|].
        eexists. split; [exact Hc|apply Hsrc'].
      - eexists. split; [exact H|]. apply col_set_col_eq. by eexists. }
    destruct (app_returns_new h s cs cs' args1 Hs Hc)
      as (r & new & Hrun & _ & Hsnap).
    exists r, (h ++ new). split; [done|]. intros args2 Hf2 Hi2.
    apply (app_returns_same _ _ cs' args2 Hsnap).
    apply (app_contents_absent _ _ (l1 ++ l2)); by rewrite ?Hf2, ?Hi2.
  - destruct (p0_contents_found_cases cs args1 l1 x l2 Hsrc Hl1 Hx)
      as [[Hnone _]|(t0 & t' & _ & _ & Hc)]; [congruence|].
    destruct (p0_returns_new h s cs _ args1 Hs Hc)
      as (r & new & Hrun & _ & Hsnap).
    exists r, (h ++ new). split; [done|]. intros args2 Hf2 Hi2.
    apply (p0_throws _ _ _ args2 _ Hsnap).
    apply (p0_contents_absent _ _ (l1 ++ l2)); rewrite ?Hf2, ?Hi2; [|done].
    apply Hsrc'.
Qed.

Lemma stale_payload_witness :
  (∃ r h', AppTsx.moveItem 2%nat (AppTsx.Before "x" "A" "B" (Some "z")) heap_AB
           = (Normal r, h') ∧
           returns_same (AppTsx.moveItem r (AppTsx.ToEnd "x" "A" "B")) h' r)
  ∧ (∃ r h', Part000.moveItem 2%nat (Part000.mkDropInfo "x" "A" "B" "z") heap_AB
             = (Normal r, h') ∧
             throws (Part000.moveItem r (Part000.mkDropInfo "x" "A" "B" "last"))
               h' (InvariantFailed
                     "Item to move must exist in the source container")).
Proof.
  destruct (stale_payload heap_AB 2%nat
              [("A", [item_x; item_y]); ("B", [item_z])]
              "A" "B" "x" [] [item_y] item_x) as [Happ Hp0];
    try reflexivity; try discriminate; try (by apply absent_check);
    try (by eexists).
  split.
  - destruct (Happ (AppTsx.Before "x" "A" "B" (Some "z")) eq_refl eq_refl eq_refl)
      as (r & h' & Hrun & Hnext).
    exists r, h'. split; [done|]. by apply Hnext.
  - destruct (Hp0 (Part000.mkDropInfo "x" "A" "B" "z") eq_refl eq_refl eq_refl)
      as (r & h' & Hrun & Hnext).
    exists r, h'. split; [done|]. by apply Hnext.
Defined.

(** X9. [src/src/App.tsx], the request of an item target followed by the
    request of the column surface for the same payload: an insert-before
    request within a container followed by the [toEnd] request for the same
    item and container leaves the item at the end of the container, whatever
    the anchor was. *)
Theorem app_insert_then_to_end (h : heap) (s : loc) (cs : ColumnsState)
    (k i b : string) (l1 l2 : list Item) (x : Item) :
  snapshot_of h s = Some cs →
  col k cs = Some (l1 ++ x :: l2) →
  Item.id x = i →
  i ∉ ids l1 →
  i ∉ ids l2 →
  b ≠ "" →
  ∃ r h',
    AppTsx.moveItem s (AppTsx.Before i k k (Some b)) h = (Normal r, h') ∧
    returns_new (AppTsx.moveItem r (AppTsx.ToEnd i k k)) h'
      (set_col k (l1 ++ l2 ++ [x]) cs).
Proof.
  intros Hs Hsrc Hx Hl1 Hl2 Hb.
  set (args1 := AppTsx.Before i k k (Some b)).
  assert (i ∉ ids (l1 ++ l2)) as Hgone by by apply not_elem_of_ids_app.
  assert (col k (set_col k (l1 ++ l2) cs) = Some (l1 ++ l2)) as Hk1
    by (apply col_set_col_eq; by eexists).
  assert (∃ n, app_contents cs args1
               = Replaced (set_col k (take n (l1 ++ l2) ++ x :: drop n (l1 ++ l2))
                             cs)) as (n & Hc).
  { rewrite (app_contents_found _ _ l1 x l2) by done. cbv zeta.
    unfold args1. rewrite app_beforeId_Some by done.
    cbn [AppTsx.toEnd AppTsx.from AppTsx.to]. rewrite Hk1.
    destruct (inserted_splice
                (if (findIndex_list (has_id b) (l1 ++ l2) =? -1)%Z
                 then Z.of_nat (length (l1 ++ l2))
                 else findIndex_list (has_id b) (l1 ++ l2)) x (l1 ++ l2))
      as [n ->].
    exists n. by rewrite set_col_set_col. }
  destruct (app_returns_new h s cs _ args1 Hs Hc)
    as (r & new & Hrun & _ & Hsnap).
  exists r, (h ++ new). split; [done|].
  eapply app_returns_new; [exact Hsnap|].
  assert (i ∉ ids (take n (l1 ++ l2))) as Htake.
  { rewrite <- (take_drop n (l1 ++ l2)) in Hgone.
    by apply not_elem_of_ids_app_inv in Hgone as [? _]. }
  rewrite (app_contents_found _ (AppTsx.ToEnd i k k)
             (take n (l1 ++ l2)) x (drop n (l1 ++ l2)));
    [|apply col_set_col_eq; by eexists|done|done].
  cbv zeta. cbn [AppTsx.toEnd AppTsx.from AppTsx.to].
  rewrite take_drop, set_col_set_col. unfold insert_at_end.
  by rewrite Hk1, set_col_set_col, <- app_assoc.
Qed.

Lemma app_insert_then_to_end_witness :
  ∃ r h',
    AppTsx.moveItem 1%nat (AppTsx.Before "x" "A" "A" (Some "z")) heap_A
    = (Normal r, h') ∧
    returns_new (AppTsx.moveItem r (AppTsx.ToEnd "x" "A" "A")) h'
      [("A", [item_y; item_z; item_x])].
Proof.
  apply (app_insert_then_to_end heap_A 1%nat [("A", [item_x; item_y; item_z])]
           "A" "x" "z" [] [item_y; item_z] item_x);
    try reflexivity; try discriminate; by apply absent_check.
Defined.

(** ** From the handlers to [moveItem] *)






(** ** What [App] renders *)

Lemma reachable_p0_keys (h : heap) (s : loc) :
  reachable Part000.moveItem p0_dropped h s →
  ∃ cs, snapshot_of h s = Some cs ∧ cs.*1 = initial_columns.*1.
Proof.
  induction 1 as [|h s cs args r h' _ (cs0 & Hs0 & Hkeys) Hs _ Hrun
                  |h s cs args e h' _ (cs0 & Hs0 & Hkeys) Hs _ Hrun].
  - exists initial_columns. split; [apply initial_snapshot|done].
  - rewrite Hs in Hs0. injection Hs0 as <-.
    destruct (p0_normal_inv h s cs args r h' Hs Hrun)
      as (cs' & Hc & _ & _ & _ & Hsnap).
    exists cs'. split; [done|].
    by rewrite (proj1 (p0_replaced_frame _ _ _ Hc)).
  - exists cs0. split; [|done].
    destruct (run_heap_extends_p0 h s cs args Hs) as [new Hnew].
    rewrite Hrun in Hnew. cbn in Hnew. subst h'. by apply snapshot_of_app.
Qed.

Lemma reachable_app_keys (h : heap) (s : loc) :
  reachable AppTsx.moveItem app_dropped h s →
  ∃ cs, snapshot_of h s = Some cs ∧ cs.*1 = initial_columns.*1.
Proof.
  induction 1 as [|h s cs args r h' _ (cs0 & Hs0 & Hkeys) Hs _ Hrun
                  |h s cs args e h' _ (cs0 & Hs0 & Hkeys) Hs _ Hrun].
  - exists initial_columns. split; [apply initial_snapshot|done].
  - rewrite Hs in Hs0. injection Hs0 as <-.
    destruct (app_normal_inv h s cs args r h' Hs Hrun)
      as [(_ & -> & new & ->)|(cs' & Hc & _ & _ & _ & Hsnap)].
    + exists cs. split; [by apply snapshot_of_app|done].
    + exists cs'. split; [done|].
      by rewrite (proj1 (app_replaced_frame _ _ _ Hc)).
  - exists cs0. split; [|done].
    destruct (run_heap_extends_app h s cs args Hs) as [new Hnew].
    rewrite Hrun in Hnew. cbn in Hnew. subst h'. by apply snapshot_of_app.
Qed.

Lemma col_elem_of k (cs : ColumnsState) a : col k cs = Some a → (k, a) ∈ cs.
Proof.
  intros (pre & post & -> & _)%col_split.
  apply elem_of_app. right. left.
Qed.

Lemma App_columns_defined (cs : ColumnsState) :
  cs.*1 = initial_columns.*1 →
  props_id <$> App_columns cs = initial_columns.*1 ∧
  ∀ p, p ∈ App_columns cs →
       ∃ title items, props_title p = Some title ∧
                      props_items p = Some items ∧
                      (props_id p, items) ∈ cs.
Proof.
  intros Hkeys. unfold App_columns. split.
  - rewrite <- list_fmap_compose, <- Hkeys. by rewrite list_fmap_id.
  - intros p (id & -> & Hid)%list_elem_of_fmap. cbn.
    assert (is_Some (title_of id)) as [title Htitle].
    { rewrite Hkeys in Hid. vm_compute in Hid.
      repeat (apply elem_of_cons in Hid as [-> | Hid]; [by eexists|]).
      by apply elem_of_nil in Hid. }
    assert (is_Some (col id cs)) as [items Hitems].
    { apply list_elem_of_fmap in Hid as ([k a] & -> & Hin). cbn.
      clear Hkeys Htitle. unfold col.
      induction cs as [|[k' a'] cs IH]; [by apply elem_of_nil in Hin|].
      cbn. destruct (String.eqb k' k) eqn:E; [by eexists|].
      apply elem_of_cons in Hin as [[= -> ->]|Hin]; [|by apply IH].
      by rewrite String.eqb_refl in E. }
    exists title, items. repeat split; try done. by apply col_elem_of.
Qed.

(** X11. The containers are fixed: every snapshot the orchestrator can hold
    has the nine keys of the initial layout, in their order, so [App] always
    renders the same nine columns, each with a title that [titles] defines
    and with the items of its container. Both variants. *)
Theorem rendered_columns_are_fixed :
  (∀ h s, reachable Part000.moveItem p0_dropped h s →
     ∃ cs, snapshot_of h s = Some cs ∧
           props_id <$> App_columns cs
           = ["a1"; "a2"; "a3"; "b1"; "b2"; "b3"; "c1"; "c2"; "c3"] ∧
           ∀ p, p ∈ App_columns cs →
                ∃ title items, props_title p = Some title ∧
                               props_items p = Some items ∧
                               (props_id p, items) ∈ cs)
  ∧ (∀ h s, reachable AppTsx.moveItem app_dropped h s →
       ∃ cs, snapshot_of h s = Some cs ∧
             props_id <$> App_columns cs
             = ["a1"; "a2"; "a3"; "b1"; "b2"; "b3"; "c1"; "c2"; "c3"] ∧
             ∀ p, p ∈ App_columns cs →
                  ∃ title items, props_title p = Some title ∧
                                 props_items p = Some items ∧
                                 (props_id p, items) ∈ cs).
Proof.
  split; intros h s Hreach.
  - destruct (reachable_p0_keys h s Hreach) as (cs & Hs & Hkeys).
    exists cs. split; [done|]. by apply App_columns_defined.
  - destruct (reachable_app_keys h s Hreach) as (cs & Hs & Hkeys).
    exists cs. split; [done|]. by apply App_columns_defined.
Qed.

Lemma rendered_columns_are_fixed_witness :
  ∃ cs,
    snapshot_of
      (snd (AppTsx.moveItem initial_state (AppTsx.ToEnd "t1" "a1" "c3")
              initial_heap)) 19%nat = Some cs ∧
    props_id <$> App_columns cs
    = ["a1"; "a2"; "a3"; "b1"; "b2"; "b3"; "c1"; "c2"; "c3"].
Proof.
  destruct rendered_columns_are_fixed as (_ & Happ).
  destruct (Happ
              (snd (AppTsx.moveItem initial_state (AppTsx.ToEnd "t1" "a1" "c3")
                      initial_heap)) 19%nat) as (cs & Hs & Hids & _).
  - eapply (reach_move _ _ initial_heap initial_state initial_columns
              (AppTsx.ToEnd "t1" "a1" "c3")).
    + apply reach_initial.
    + apply initial_snapshot.
    + exact I.
    + by vm_compute.
  - by exists cs.
Defined.

(** ** The markers on the elements *)

Lemma hasAttribute_removeAttribute name (e : Element) :
  hasAttribute name (removeAttribute name e) = false.
Proof.
  unfold hasAttribute, removeAttribute. cbn.
  induction (attributes e) as [|a l IH]; [done|]. cbn.
  destruct (String.eqb (fst a) name) eqn:E; cbn; [done|]. by rewrite E.
Qed.

Lemma removeAttribute_absent name (e : Element) :
  hasAttribute name e = false → removeAttribute name e = e.
Proof.
  destruct e as [html attrs]. unfold hasAttribute, removeAttribute. cbn.
  intros H. f_equal. induction attrs as [|a l IH]; [done|]. cbn in *.
  apply orb_false_iff in H as [Ha Hl]. rewrite Ha. cbn. by rewrite IH.
Qed.

Lemma removeAttribute_setAttribute name v (e : Element) :
  hasAttribute name e = false → removeAttribute name (setAttribute name v e) = e.
Proof.
  intros H. pose proof (removeAttribute_absent name e H) as Hrem.
  destruct e as [html attrs]. unfold setAttribute. rewrite H.
  unfold removeAttribute in *. cbn in *. f_equal.
  rewrite List.filter_app. cbn. rewrite String.eqb_refl. cbn.
  injection Hrem as ->. by rewrite app_nil_r.
Qed.

(** X12. The markers are cleaned up. Whatever the element, it carries no
    [data-dragging] after the drag source's [onDrop], no [data-column-hover]
    after the column's [onDragLeave] or [onDrop], and no [data-drop-intent]
    after the item target's [onDragLeave] or [onDrop]. And an element that
    carried no such marker is exactly as it was after drag start and drop,
    or after enter and leave, or after enter and drop. *)
Theorem markers_are_cleaned_up (e : Element) (data : option DragData)
    (item : Item) (id : string) :
  (hasAttribute "data-dragging" (draggable_onDrop e) = false
   ∧ hasAttribute "data-column-hover" (Column_onDragLeave e) = false
   ∧ hasAttribute "data-column-hover" (fst (Part000.Column_onDrop id data e))
     = false
   ∧ hasAttribute "data-column-hover" (fst (AppTsx.Column_onDrop id data e))
     = false
   ∧ hasAttribute "data-drop-intent" (Part000.DraggableItem_onDragLeave e)
     = false
   ∧ hasAttribute "data-drop-intent"
       (fst (Part000.DraggableItem_onDrop item id data e)) = false
   ∧ hasAttribute "data-drop-intent" (AppTsx.DraggableItem_onDragLeave e)
     = false
   ∧ hasAttribute "data-drop-intent"
       (fst (AppTsx.DraggableItem_onDrop item id data e)) = false)
  ∧ (hasAttribute "data-dragging" e = false →
     draggable_onDrop (draggable_onDragStart e) = e)
  ∧ (hasAttribute "data-column-hover" e = false →
     Column_onDragLeave (Column_onDragEnter e) = e
     ∧ fst (Part000.Column_onDrop id data (Column_onDragEnter e)) = e
     ∧ fst (AppTsx.Column_onDrop id data (Column_onDragEnter e)) = e)
  ∧ (hasAttribute "data-drop-intent" e = false →
     Part000.DraggableItem_onDragLeave (Part000.DraggableItem_onDragEnter data e)
     = e
     ∧ fst (Part000.DraggableItem_onDrop item id data
              (Part000.DraggableItem_onDragEnter data e)) = e
     ∧ AppTsx.DraggableItem_onDragLeave (AppTsx.DraggableItem_onDragEnter data e)
       = e
     ∧ fst (AppTsx.DraggableItem_onDrop item id data
              (AppTsx.DraggableItem_onDragEnter data e)) = e).
Proof.
  assert (∀ id data e', fst (Part000.Column_onDrop id data e')
                        = removeAttribute "data-column-hover" e') as Hc0.
  { intros ? [d|] ?; cbn; [by destruct (negb _)|done]. }
  assert (∀ id data e', fst (AppTsx.Column_onDrop id data e')
                        = removeAttribute "data-column-hover" e') as Hc1.
  { intros ? [d|] ?; cbn; [by destruct (negb _)|done]. }
  assert (∀ e', fst (Part000.DraggableItem_onDrop item id data e')
                = removeAttribute "data-drop-intent" e') as Hi0.
  { intros ?. destruct data as [d|]; cbn; [by destruct (negb _)|done]. }
  assert (∀ e', fst (AppTsx.DraggableItem_onDrop item id data e')
                = removeAttribute "data-drop-intent" e') as Hi1.
  { intros ?. destruct data as [d|]; cbn; [by destruct (negb _)|done]. }
  split; [|split; [|split]].
  - rewrite Hc0, Hc1, Hi0, Hi1.
    unfold draggable_onDrop, Column_onDragLeave,
      Part000.DraggableItem_onDragLeave, AppTsx.DraggableItem_onDragLeave.
    by rewrite !hasAttribute_removeAttribute.
  - intros H. by apply removeAttribute_setAttribute.
  - intros H. rewrite Hc0, Hc1.
    unfold Column_onDragLeave, Column_onDragEnter.
    by rewrite !removeAttribute_setAttribute.
  - intros H. rewrite Hi0, Hi1.
    unfold Part000.DraggableItem_onDragLeave, Part000.DraggableItem_onDragEnter,
      AppTsx.DraggableItem_onDragLeave, AppTsx.DraggableItem_onDragEnter.
    destruct (negb (is_item_drag data)).
    + by rewrite !removeAttribute_absent.
    + by rewrite !removeAttribute_setAttribute.
Qed.

Lemma markers_are_cleaned_up_witness :
  let e := mkElement true [("role", "listitem"); ("class", "item")] in
  let data := Some (DragData.mk "item" "x" "A") in
  draggable_onDrop (draggable_onDragStart e) = e
  ∧ Part000.DraggableItem_onDragLeave (Part000.DraggableItem_onDragEnter data e)
    = e
  ∧ fst (Part000.DraggableItem_onDrop item_y "A" data
           (Part000.DraggableItem_onDragEnter data e)) = e.
Proof.
  cbv zeta.
  destruct (markers_are_cleaned_up
              (mkElement true [("role", "listitem"); ("class", "item")])
              (Some (DragData.mk "item" "x" "A")) item_y "A")
    as (_ & H1 & _ & H2).
  split; [by apply H1|]. destruct H2 as (Ha & Hb & _); [done|]. by split.
Defined.

(** ** The column surface while an item is hovered *)

Lemma hasDropIntent_false (children : list Element) :
  Part000.hasDropIntent children = false ↔
  ∀ c, c ∈ children → instanceofHTMLElement c = true →
       hasAttribute "data-drop-intent" c = false.
Proof.
  split.
  - intros Hf c Hin Hhtml.
    destruct (hasAttribute "data-drop-intent" c) eqn:E; [|done].
    assert (Part000.hasDropIntent children = true) as Ht
      by (apply hasDropIntent_true; by exists c).
    congruence.
  - intros Hall. destruct (Part000.hasDropIntent children) eqn:E; [|done].
    apply hasDropIntent_true in E as (c & Hin & Hhtml & Hmark).
    rewrite (Hall c Hin Hhtml) in Hmark. discriminate.
Qed.

(** X13. The column surface gives way and comes back. Take a list element
    none of whose [HTMLElement] children carries [data-drop-intent], and an
    item drag. While one [HTMLElement] child is in the state its
    [onDragEnter] leaves it in, the column's [canDrop] is [false]; once that
    child is in the state its [onDragLeave] (or its [onDrop]) leaves it in,
    [canDrop] is [true] again. Children that are no [HTMLElement] never
    block the column. *)
Theorem column_gives_way_and_comes_back (data : option DragData)
    (children : list Element) (i : nat) (c : Element) (item : Item)
    (containerId : string) :
  is_item_drag data = true →
  (∀ c', c' ∈ children → instanceofHTMLElement c' = true →
         hasAttribute "data-drop-intent" c' = false) →
  children !! i = Some c →
  instanceofHTMLElement c = true →
  Part000.Column_canDrop data children = true
  ∧ Part000.Column_canDrop data
      (<[i := Part000.DraggableItem_onDragEnter data c]> children) = false
  ∧ Part000.Column_canDrop data
      (<[i := Part000.DraggableItem_onDragLeave
                (Part000.DraggableItem_onDragEnter data c)]> children) = true
  ∧ Part000.Column_canDrop data
      (<[i := fst (Part000.DraggableItem_onDrop item containerId data
                     (Part000.DraggableItem_onDragEnter data c))]> children)
    = true.
Proof.
  intros Hdrag Hclean Hi Hhtml.
  assert (i < length children)%nat as Hlt by by eapply lookup_lt_Some.
  assert (hasAttribute "data-drop-intent" c = false) as Hc.
  { apply Hclean; [|done]. by eapply list_elem_of_lookup_2. }
  destruct (onDragEnter_marks data c Hdrag) as [Hmark Hsame].
  assert (Part000.DraggableItem_onDragLeave
            (Part000.DraggableItem_onDragEnter data c) = c) as ->.
  { unfold Part000.DraggableItem_onDragLeave,
      Part000.DraggableItem_onDragEnter.
    rewrite Hdrag. by apply removeAttribute_setAttribute. }
  assert (fst (Part000.DraggableItem_onDrop item containerId data
                 (Part000.DraggableItem_onDragEnter data c)) = c) as ->.
  { unfold Part000.DraggableItem_onDrop, Part000.DraggableItem_onDragEnter.
    rewrite Hdrag. cbn [negb]. destruct data as [d|]; [|done].
    cbn in Hdrag. rewrite Hdrag. cbn [negb fst].
    by apply removeAttribute_setAttribute. }
  rewrite (list_insert_id _ _ _ Hi).
  assert (Part000.Column_canDrop data children = true) as Hfree.
  { unfold Part000.Column_canDrop. rewrite Hdrag.
    by rewrite (proj2 (hasDropIntent_false children) Hclean). }
  repeat split; try done.
  unfold Part000.Column_canDrop.
  assert (Part000.hasDropIntent
            (<[i := Part000.DraggableItem_onDragEnter data c]> children) = true)
    as ->; [|by rewrite andb_false_r].
  apply hasDropIntent_true.
  exists (Part000.DraggableItem_onDragEnter data c). split; [|by rewrite Hsame].
  apply list_elem_of_lookup. exists i. by apply list_lookup_insert_eq.
Qed.

Lemma column_gives_way_and_comes_back_witness :
  let data := Some (DragData.mk "item" "x" "A") in
  let c := mkElement true [("role", "listitem")] in
  let children := [mkElement false [("data-drop-intent", "before")]; c] in
  Part000.Column_canDrop data children = true
  ∧ Part000.Column_canDrop data
      (<[1%nat := Part000.DraggableItem_onDragEnter data c]> children) = false
  ∧ Part000.Column_canDrop data
      (<[1%nat := Part000.DraggableItem_onDragLeave
                   (Part000.DraggableItem_onDragEnter data c)]> children) = true.
Proof.
  cbv zeta.
  destruct (column_gives_way_and_comes_back
              (Some (DragData.mk "item" "x" "A"))
              [mkElement false [("data-drop-intent", "before")];
               mkElement true [("role", "listitem")]]
              1%nat (mkElement true [("role", "listitem")]) item_y "A")
    as (H1 & H2 & H3 & _); try reflexivity.
  - intros c' Hin Hhtml.
    apply elem_of_cons in Hin as [-> | Hin]; [discriminate|].
    apply list_elem_of_singleton in Hin as ->. reflexivity.
  - by repeat split.
Defined.

(** ** [App.tsx]: always right before the anchor *)

(** X14. [src/src/App.tsx] puts the item right before the anchor whenever
    the anchor is in the target sequence as it is once the item has been
    taken out, for a move within a container as for a move into another
    one. *)
Theorem app_inserts_right_before_anchor (h : heap) (s : loc)
    (cs : ColumnsState) (f t i b : string) (l1 l2 t1 t2 : list Item)
    (x y : Item) :
  snapshot_of h s = Some cs →
  col f cs = Some (l1 ++ x :: l2) →
  i ∉ ids l1 →
  Item.id x = i →
  col t (set_col f (l1 ++ l2) cs) = Some (t1 ++ y :: t2) →
  b ∉ ids t1 →
  Item.id y = b →
  b ≠ "" →
  returns_new (AppTsx.moveItem s (AppTsx.Before i f t (Some b))) h
    (set_col t (t1 ++ x :: y :: t2) (set_col f (l1 ++ l2) cs)).
Proof.
  intros Hs Hsrc Hl1 Hx Htgt Hb Hy Hne.
  eapply app_returns_new; [exact Hs|].
  apply (app_insert_before cs (AppTsx.Before i f t (Some b)) b); try done.
  by apply app_beforeId_Some.
Qed.

Lemma app_inserts_right_before_anchor_witness :
  returns_new (AppTsx.moveItem 1%nat (AppTsx.Before "x" "A" "A" (Some "z")))
    heap_A [("A", [item_y; item_x; item_z])].
Proof.
  apply (app_inserts_right_before_anchor heap_A 1%nat
           [("A", [item_x; item_y; item_z])] "A" "A" "x" "z"
           [] [item_y; item_z] [item_y] [] item_x item_z);
    try reflexivity; try discriminate; by apply absent_check.
Defined.

(** ** A snapshot that is not new *)

(** C6 as stated fails on the second request of a drop in
    [src/src/App.tsx]: after [x] has gone from [A] to [B], the column's
    request for the same payload finds nothing in [A], and [moveItem]
    returns the snapshot it was given, not a new one; the variant with
    [invariant] throws on that request and returns nothing. *)
Lemma moveItem_is_pure_counterexample :
  fst (AppTsx.moveItem 5%nat (AppTsx.ToEnd "x" "A" "B")
         (snd (AppTsx.moveItem 2%nat (AppTsx.Before "x" "A" "B" (Some "z"))
                 heap_AB)))
  = Normal 5%nat
  ∧ (¬ ∃ cs', returns_new (AppTsx.moveItem 5%nat (AppTsx.ToEnd "x" "A" "B"))
                (snd (AppTsx.moveItem 2%nat
                        (AppTsx.Before "x" "A" "B" (Some "z")) heap_AB)) cs')
  ∧ (¬ ∃ r h', Part000.moveItem 5%nat (Part000.mkDropInfo "x" "A" "B" "last")
                 (snd (Part000.moveItem 2%nat
                         (Part000.mkDropInfo "x" "A" "B" "z") heap_AB))
               = (Normal r, h')).
Proof.
  split; [by vm_compute|]. split.
  - intros (cs' & r & new & Hrun & Hle & _).
    vm_compute in Hrun. injection Hrun as <- _.
    vm_compute in Hle. lia.
  - intros (r & h' & Hrun). vm_compute in Hrun. discriminate.
Qed.

(** ** The drop on an item that was never entered *)

(** When no [HTMLElement] child carries the marker, the column accepts the
    item drag as well, and a drop over an item element sends two requests:
    the item target's, then the column's. *)
Lemma drop_over_unmarked_item (d : DragData) (children : list Element)
    (item : Item) (containerId : string) (self column : Element) :
  DragData.type d = "item" →
  (∀ c, c ∈ children → instanceofHTMLElement c = true →
        hasAttribute "data-drop-intent" c = false) →
  Part000.Column_canDrop (Some d) children = true
  ∧ Part000.drop_over_item item containerId (Some d) self column children
    = [Part000.mkDropInfo (DragData.itemId d) (DragData.fromContainerId d)
         containerId (Item.id item);
       Part000.mkDropInfo (DragData.itemId d) (DragData.fromContainerId d)
         containerId "last"].
Proof.
  intros Htype Hclean.
  assert (Part000.Column_canDrop (Some d) children = true) as Hcan.
  { unfold Part000.Column_canDrop. cbn [is_item_drag]. rewrite Htype.
    by rewrite (proj2 (hasDropIntent_false children) Hclean). }
  split; [done|].
  unfold Part000.drop_over_item. rewrite Hcan.
  unfold Part000.DraggableItem_canDrop, Part000.DraggableItem_onDrop,
    Part000.Column_onDrop. cbn. by rewrite Htype.
Qed.

(** C7, the input on which the code fails the claim. The item [x] of
    [{A: [x, y, z]}] is pressed and released over its own element, which the
    drag never entered: no child of the list carries [data-drop-intent], the
    column's [canDrop] returns [true], and the drop sends two requests, the
    item target's [{x, A, A, beforeId: x}] and the column's
    [{x, A, A, beforeId: "last"}]. Applied in this order they leave [x] at
    the end of [A]. *)
Theorem drop_on_unentered_item_sends_two :
  Part000.Column_canDrop (Some (getInitialData item_x "A"))
    [item_element; item_element; item_element] = true
  ∧ Part000.drop_over_item item_x "A" (Some (getInitialData item_x "A"))
      item_element list_element [item_element; item_element; item_element]
    = [Part000.mkDropInfo "x" "A" "A" "x"; Part000.mkDropInfo "x" "A" "A" "last"]
  ∧ ∃ r h',
      Part000.moveItem 1%nat (Part000.mkDropInfo "x" "A" "A" "x") heap_A
      = (Normal r, h') ∧
      returns_new (Part000.moveItem r (Part000.mkDropInfo "x" "A" "A" "last"))
        h' [("A", [item_y; item_z; item_x])].
Proof.
  destruct (drop_over_unmarked_item (getInitialData item_x "A")
              [item_element; item_element; item_element] item_x "A"
              item_element list_element eq_refl) as [Hcan Hreqs].
  { intros c Hin _.
    repeat (apply elem_of_cons in Hin as [-> | Hin]; [reflexivity|]).
    by apply elem_of_nil in Hin. }
  split; [exact Hcan|]. split; [exact Hreqs|].
  eexists _, _. split; [by vm_compute|].
  by apply (returns_new_run _ _ 5%nat
              [Arr [item_y; item_z; item_x]; Rec [("A", 4%nat)]]).
Qed.
